(** * terminal-text-effects: the Terminal compositor

    A shallow embedding of [terminaltexteffects/utils/terminal.py] (the
    class [Terminal] and the dataclass [OutputArea]) and of the frame loops of
    [effects/effect_binarypath.py] and [effects/rain.py], with the properties
    the specification states about them; and of the binary strings and the
    paths of [BinaryPathEffect.prepare_data] and of [RainEffect.prepare_data]
    and the loop of [RainEffect.run], with further properties of the code.

    Conventions.
    - A Python [str] is a list of Unicode code points ([N]); a one-character
      string, such as a Character's symbol, is one code point.
    - A Python [int] is a [Z].
    - A call either returns, raises, or does not come back: [outcome].  Loops
      whose termination depends on the data run on fuel, and the theorems say
      how much fuel is enough (or that no amount is). *)

From Stdlib Require Import ZArith Lia String Ascii.
From stdpp Require Import base numbers option list sorting gmap.

Local Open Scope Z_scope.

(** ** Python values *)

Definition char := N.
Abbreviation str := (list char).

Definition str_of_string (s : string) : str :=
  N_of_ascii <$> list_ascii_of_string s.

Definition SPACE : char := 32%N.
Definition LF : char := 10%N.
Definition CR : char := 13%N.

(** [len(x)] as a Python integer. *)
Definition len {X} (l : list X) : Z := Z.of_nat (length l).

(** ** Outcomes of a call *)

Inductive exn := ValueError | IndexError.

Inductive outcome (X : Type) : Type :=
| Ok (x : X)
| Raise (e : exn)
| OutOfFuel.
Arguments Ok {X} x.
Arguments Raise {X} e.
Arguments OutOfFuel {X}.

Definition bind {X Y} (m : outcome X) (k : X -> outcome Y) : outcome Y :=
  match m with
  | Ok a => k a
  | Raise e => Raise e
  | OutOfFuel => OutOfFuel
  end.

Notation "'call' x <- m 'in' k" := (bind m (fun x => k))
  (at level 10, x name, m at level 100, k at level 200,
   format "'[v' 'call'  x  <-  m  'in' '/' k ']'").

(** ** The standard library functions the module uses *)

Module Py.

(** The line boundaries of [str.splitlines]: LF, VT, FF, CR, FS, GS, RS,
    NEL, LINE SEPARATOR and PARAGRAPH SEPARATOR; CR LF counts as one. *)
Definition is_linebreak (c : char) : bool :=
  bool_decide (c ∈ [10; 11; 12; 13; 28; 29; 30; 133; 8232; 8233]%N).

(** [splitlines_from line s]: the lines of [s], the first of them prefixed
    with the part [line] already read.  A line is closed by each boundary,
    and by the end of the string only when it is not empty. *)
Fixpoint splitlines_from (line : str) (s : str) : list str :=
  match s with
  | [] => match line with [] => [] | _ => [line] end
  | c :: rest =>
      if is_linebreak c then
        line ::
          match rest with
          | c' :: rest' =>
              if bool_decide (c = CR) && bool_decide (c' = LF)
              then splitlines_from [] rest'
              else splitlines_from [] rest
          | [] => []
          end
      else splitlines_from (line ++ [c]) rest
  end.

(** [s.splitlines()] *)
Definition splitlines (s : str) : list str := splitlines_from [] s.

(** A slice bound [k] on a sequence of length [n]: negative bounds count
    from the end, and every bound is clamped to [0 .. n]. *)
Definition clamp (n k : Z) : nat :=
  Z.to_nat (if k <? 0 then Z.max 0 (n + k) else Z.min k n).

(** [l[:k]] *)
Definition slice_to {X} (k : Z) (l : list X) : list X := take (clamp (len l) k) l.
(** [l[k:]] *)
Definition slice_from {X} (k : Z) (l : list X) : list X := drop (clamp (len l) k) l.

(** [max(l)] on a list of integers: [ValueError] on the empty list. *)
Definition max (l : list Z) : outcome Z :=
  match l with
  | [] => Raise ValueError
  | x :: l' => Ok (foldl Z.max x l')
  end.

(** The position an index [i] denotes in a sequence of length [n]:
    [0 .. n-1] as they are, [-n .. -1] counted from the end, and
    [IndexError] for the rest. *)
Definition index (n i : Z) : outcome nat :=
  if bool_decide (0 <= i < n) then Ok (Z.to_nat i)
  else if bool_decide (- n <= i < 0) then Ok (Z.to_nat (n + i))
  else Raise IndexError.

(** [l[i] = x] *)
Definition setitem {X} (l : list X) (i : Z) (x : X) : outcome (list X) :=
  call p <- index (len l) i in
  Ok (<[p := x]> l).

End Py.

(** ** Geometry and characters *)

Record Coord := mkCoord { column : Z; row : Z }.

(** [OutputArea(top, right, bottom=1, left=1)] *)
Record OutputArea := mkOutputArea { top : Z; right : Z; bottom : Z; left : Z }.

Definition new_OutputArea (top right : Z) : OutputArea :=
  {| top := top; right := right; bottom := 1; left := 1 |}.

(** The attributes of an [EffectCharacter] that [Terminal] and the effect
    loops read or write.  [is_active] is the flag that [Terminal] tests before
    it draws a character: a visible character is one that has it set. *)
Record EffectCharacter := mkEffectCharacter {
  symbol : char;
  input_coord : Coord;
  current_coord : Coord;
  is_active : bool;
  layer : Z
}.

(** Modelled from the spec: the constructor
    [EffectCharacter(symbol, input_column, input_row)] of [base_character.py],
    a module that is not available.  The input coordinate is the one passed
    and is fixed from then on; a fresh character stands at its input
    coordinate, is not drawn until it is made visible, and has layer 0. *)
Definition new_EffectCharacter (s : char) (input_column input_row : Z) : EffectCharacter :=
  {| symbol := s;
     input_coord := mkCoord input_column input_row;
     current_coord := mkCoord input_column input_row;
     is_active := false;
     layer := 0 |}.

(** ** Terminal._decompose_input *)

(** The [while len(line) > self.width] loop: one unit of fuel per iteration. *)
Fixpoint wrap_loop (fuel : nat) (width : Z) (line : str) (wrapped_lines : list str)
  : outcome (str * list str) :=
  if bool_decide (len line > width) then
    match fuel with
    | O => OutOfFuel
    | S fuel' =>
        wrap_loop fuel' width (Py.slice_from width line)
                  (wrapped_lines ++ [Py.slice_to width line])
    end
  else Ok (line, wrapped_lines).

(** The [for line in input_lines] loop around it. *)
Fixpoint wrap_lines (fuel : nat) (width : Z) (input_lines : list str) (wrapped_lines : list str)
  : outcome (list str) :=
  match input_lines with
  | [] => Ok wrapped_lines
  | line :: input_lines' =>
      call r <- wrap_loop fuel width line wrapped_lines in
      let '(line, wrapped_lines) := r in
      wrap_lines fuel width input_lines'
                 (match line with [] => wrapped_lines | _ => wrapped_lines ++ [line] end)
  end.

(** [for column, symbol in enumerate(line)], from index [column] on. *)
Fixpoint decompose_line (input_height row column : Z) (line : str) : list EffectCharacter :=
  match line with
  | [] => []
  | s :: line' =>
      (if bool_decide (s <> SPACE)
       then [new_EffectCharacter s (column + 1) (input_height - row)]
       else [])
      ++ decompose_line input_height row (column + 1) line'
  end.

(** [for row, line in enumerate(wrapped_lines)], from index [row] on. *)
Fixpoint decompose_rows (input_height row : Z) (wrapped_lines : list str) : list EffectCharacter :=
  match wrapped_lines with
  | [] => []
  | line :: rest =>
      decompose_line input_height row 0 line
      ++ decompose_rows input_height (row + 1) rest
  end.

Definition _decompose_input (fuel : nat) (width : Z) (input_data : str)
  : outcome (list EffectCharacter) :=
  call wrapped_lines <- wrap_lines fuel width (Py.splitlines input_data) [] in
  let input_height := len wrapped_lines in
  Ok (decompose_rows input_height 0 wrapped_lines).

(** ** Terminal *)

(** What [print] writes to standard output, in order.  The escape sequences
    come from [utils/ansicodes.py]; they are kept as tokens. *)
Inductive write :=
| DEC_SAVE_CURSOR_POSITION
| MOVE_CURSOR_UP (n : Z)
| MOVE_CURSOR_TO_COLUMN (n : Z)
| Text (s : str)
| DEC_RESTORE_CURSOR_POSITION
| Flush.

Record Terminal := mkTerminal {
  input_data : str;
  width : Z;
  height : Z;
  characters : list EffectCharacter;
  input_width : Z;
  input_height : Z;
  output_area : OutputArea;
  terminal_state : list str
}.

(** The body of the loop of [_update_terminal_state]: an active character
    writes its symbol to [rows[row - 1][column - 1]]. *)
Definition stamp (rows : list str) (character : EffectCharacter) : outcome (list str) :=
  if is_active character then
    call r <- Py.index (len rows) (row (current_coord character) - 1) in
    match rows !! r with
    | None => Raise IndexError
    | Some cells =>
        call cells' <- Py.setitem cells (column (current_coord character) - 1)
                                  (symbol character) in
        Ok (<[r := cells']> rows)
    end
  else Ok rows.

Fixpoint stamp_all (rows : list str) (characters : list EffectCharacter) : outcome (list str) :=
  match characters with
  | [] => Ok rows
  | character :: rest =>
      call rows' <- stamp rows character in
      stamp_all rows' rest
  end.

(** The empty buffer: [top] rows of [right] spaces ([range] of a number that
    is not positive is empty). *)
Definition blank_rows (area : OutputArea) : list str :=
  replicate (Z.to_nat (top area)) (replicate (Z.to_nat (right area)) SPACE).

(** [_update_terminal_state], as a function of the two attributes it reads;
    its result is the new [terminal_state]. *)
Definition _update_terminal_state (area : OutputArea) (characters : list EffectCharacter)
  : outcome (list str) :=
  stamp_all (blank_rows area) characters.

(** [_prep_outputarea]: one [print] of [top] newlines, and the one [print]
    itself appends. *)
Definition _prep_outputarea (area : OutputArea) : list write :=
  [Text (replicate (Z.to_nat (top area)) LF ++ [LF])].

(** [Terminal(input_data)], with the terminal dimensions that
    [_get_terminal_dimensions] reads from the environment as an argument.
    The result is the new object and what was written to standard output. *)
Definition Terminal_init (fuel : nat) (input_data : str) (dimensions : Z * Z)
  : outcome (Terminal * list write) :=
  let '(width, height) := dimensions in
  call characters <- _decompose_input fuel width input_data in
  call input_width <- Py.max ((fun c => column (input_coord c)) <$> characters) in
  call input_height <- Py.max ((fun c => row (input_coord c)) <$> characters) in
  let output_area := new_OutputArea (Z.min (height - 1) input_height) input_width in
  let characters :=
    filter (fun c => row (input_coord c) <= top output_area) characters in
  call terminal_state <- _update_terminal_state output_area characters in
  Ok ({| input_data := input_data; width := width; height := height;
         characters := characters;
         input_width := input_width; input_height := input_height;
         output_area := output_area;
         terminal_state := terminal_state |},
      _prep_outputarea output_area).

(** The writes of [print] for the rows from index [row_index] on. *)
Fixpoint print_rows (row_index : Z) (rows : list str) : list write :=
  match rows with
  | [] => []
  | r :: rest =>
      [DEC_SAVE_CURSOR_POSITION; MOVE_CURSOR_UP (row_index + 1);
       MOVE_CURSOR_TO_COLUMN 1; Text r; DEC_RESTORE_CURSOR_POSITION; Flush]
      ++ print_rows (row_index + 1) rest
  end.

Definition with_terminal_state (t : Terminal) (st : list str) : Terminal :=
  {| input_data := input_data t; width := width t; height := height t;
     characters := characters t;
     input_width := input_width t; input_height := input_height t;
     output_area := output_area t;
     terminal_state := st |}.

(** [Terminal.print] *)
Definition print (t : Terminal) : outcome (Terminal * list write) :=
  call st <- _update_terminal_state (output_area t) (characters t) in
  Ok (with_terminal_state t st, print_rows 0 st).

Definition A : char := 65%N.
Definition B : char := 66%N.

(** ** The frame loops of the effects *)

#[global] Instance Coord_eq_dec : EqDecision Coord.
Proof. solve_decision. Defined.

Definition with_characters (t : Terminal) (cs : list EffectCharacter) : Terminal :=
  {| input_data := input_data t; width := width t; height := height t;
     characters := cs;
     input_width := input_width t; input_height := input_height t;
     output_area := output_area t;
     terminal_state := terminal_state t |}.

(** The state of a [BinaryPathEffect] that the end of its loop body uses.
    The characters are objects of the terminal; [active_chars] holds
    references to them, here their positions in [terminal.characters], so that
    a tick through [active_chars] is seen by the next [print]. *)
Record BinaryPathEffect := mkBinaryPathEffect {
  terminal : Terminal;
  active_chars : list nat
}.

Section Effects.

(** [EffectCharacter.tick], and [move], [step_animation] and
    [graphical_effect.disable_modes] of the characters of [rain.py]: methods
    of classes whose modules are not available, hence parameters. *)
Variable tick : EffectCharacter -> EffectCharacter.
Variables move step_animation disable_modes : EffectCharacter -> EffectCharacter.

(** [BinaryPathEffect.animate_chars]: [character.tick()] for every
    reference in [active_chars], on the characters [cs]. *)
Definition animate_chars (active : list nat) (cs : list EffectCharacter)
  : list EffectCharacter :=
  foldl (fun cs i => alter tick i cs) cs active.

(** The end of the body of the loop of [BinaryPathEffect.run]:
    [self.terminal.print()], [self.animate_chars()], and the filter that
    keeps the references to characters that are still active. *)
Definition run_frame (e : BinaryPathEffect) : outcome (BinaryPathEffect * list write) :=
  call r <- print (terminal e) in
  let '(t, out) := r in
  let cs := animate_chars (active_chars e) (characters t) in
  Ok ({| terminal := with_characters t cs;
         active_chars :=
           filter (fun i => is_active <$> cs !! i = Some true) (active_chars e) |},
      out).

(** [RainEffect.animate_chars], on the characters [cs] with the references
    [animating]: the second component lists the characters as
    [print_character] got them. *)
Fixpoint rain_animate_chars (animating : list nat) (cs : list EffectCharacter)
  : list EffectCharacter * list EffectCharacter :=
  match animating with
  | [] => (cs, [])
  | i :: rest =>
      match cs !! i with
      | None => rain_animate_chars rest cs
      | Some ch =>
          let ch :=
            if decide (current_coord ch = input_coord ch) then disable_modes ch else ch in
          let printed := ch in
          let ch := step_animation (move ch) in
          let '(cs', out) := rain_animate_chars rest (<[i := ch]> cs) in
          (cs', printed :: out)
      end
  end.

End Effects.


(** ** Notions the statements use *)

(** The chunks a line is wrapped into: they make up the line, none is empty
    and none is longer than the width. *)
Definition chunks_of (w : Z) (line : str) (chunks : list str) : Prop :=
  concat chunks = line /\ Forall (fun ch => 1 <= len ch <= w) chunks.

(** The symbol that the wrapped lines have at an input coordinate: rows are
    numbered from the last line (row 1) upwards, columns from 1. *)
Definition symbol_at (wrapped_lines : list str) (c : Coord) : option char :=
  line ← wrapped_lines !! Z.to_nat (len wrapped_lines - row c);
  line !! Z.to_nat (column c - 1).

(** [m] is the greatest element of [l]. *)
Definition is_maximum (m : Z) (l : list Z) : Prop :=
  m ∈ l /\ Forall (fun x => x <= m) l.

(** What [Terminal(input_data)] returns when decomposition yields characters. *)
Definition built (input : str) (w h : Z) (cs : list EffectCharacter) (mw mh : Z) : Terminal :=
  let area := new_OutputArea (Z.min (h - 1) mh) mw in
  {| input_data := input; width := w; height := h;
     characters := filter (fun c => row (input_coord c) <= top area) cs;
     input_width := mw; input_height := mh;
     output_area := area;
     terminal_state := blank_rows area |}.

(** [n] calls of [print] in a row. *)
Fixpoint prints (n : nat) (t : Terminal) : outcome (Terminal * list write) :=
  match n with
  | O => Ok (t, [])
  | S n' =>
      call r <- print t in
      let '(t', out) := r in
      call r' <- prints n' t' in
      let '(t'', out') := r' in
      Ok (t'', out ++ out')
  end.

(** No character of the terminal has an input row above the top of the
    output area. *)
Definition rows_within_top (t : Terminal) : Prop :=
  Forall (fun c => row (input_coord c) <= top (output_area t)) (characters t).

(** The buffer as a grid: [n] rows of [m] cells. *)
Definition grid (n m : nat) (rows : list str) : Prop :=
  length rows = n /\ Forall (fun r => length r = m) rows.

(** The cell at row index [i] and column index [j] of the buffer. *)
Definition cell (rows : list str) (i j : nat) : option char :=
  r ← rows !! i; r !! j.

(** The indices of the cell that [stamp] writes for a character, in a
    buffer of [n] rows of [m] cells: none for a character that is not active,
    and none where an index is out of range. *)
Definition landing (n m : nat) (ch : EffectCharacter) : option (nat * nat) :=
  if is_active ch then
    match Py.index (Z.of_nat n) (row (current_coord ch) - 1),
          Py.index (Z.of_nat m) (column (current_coord ch) - 1) with
    | Ok i, Ok j => Some (i, j)
    | _, _ => None
    end
  else None.

(** The last character of the list that is written to the cell [(i, j)]. *)
Definition last_stamp (n m : nat) (cs : list EffectCharacter) (i j : nat)
  : option EffectCharacter :=
  last (filter (fun ch => landing n m ch = Some (i, j)) cs).

(** A coordinate inside the output area. *)
Definition inside (area : OutputArea) (c : Coord) : Prop :=
  bottom area <= row c <= top area /\ left area <= column c <= right area.

(** Following the spec's words: among the characters stamped onto one cell,
    given in stamping order, the one with the highest layer is displayed, and
    among those of equal layer the one stamped last. *)
Definition spec_topmost (stamped : list EffectCharacter) : option EffectCharacter :=
  foldl (fun best ch =>
           match best with
           | Some b => if layer ch <? layer b then Some b else Some ch
           | None => Some ch
           end) None stamped.

Definition Zed : char := 90%N.

(** A tick that moves a character one column to the left. *)
Definition step_left (ch : EffectCharacter) : EffectCharacter :=
  {| symbol := symbol ch;
     input_coord := input_coord ch;
     current_coord := mkCoord (column (current_coord ch) - 1) (row (current_coord ch));
     is_active := is_active ch;
     layer := layer ch |}.

(** The character as [print_character] of [rain.py] gets it. *)
Definition rain_printed (disable_modes : EffectCharacter -> EffectCharacter)
    (ch : EffectCharacter) : EffectCharacter :=
  if decide (current_coord ch = input_coord ch) then disable_modes ch else ch.

(** ** Notions the further statements use *)

(** The texts that a sequence of writes puts on the screen, in order. *)
Definition texts (out : list write) : list str :=
  omap (fun wr => match wr with Text s => Some s | _ => None end) out.

(** The numbers of lines that the cursor is moved up by, in order. *)
Definition cursor_ups (out : list write) : list Z :=
  omap (fun wr => match wr with MOVE_CURSOR_UP n => Some n | _ => None end) out.

(** The coordinates that [rows[row - 1][column - 1]] accepts in a buffer for
    the output area: the rows from [1 - top] to [top] and the columns from
    [1 - right] to [right] (none when the buffer is empty). *)
Definition indexable (area : OutputArea) (c : Coord) : Prop :=
  - Z.max 0 (top area) < row c <= Z.max 0 (top area)
  /\ - Z.max 0 (right area) < column c <= Z.max 0 (right area).

(** The character drawn at another coordinate. *)
Definition drawn_at (c : Coord) (ch : EffectCharacter) : EffectCharacter :=
  {| symbol := symbol ch;
     input_coord := input_coord ch;
     current_coord := c;
     is_active := true;
     layer := layer ch |}.

(** The character when it has come home: drawn at its input coordinate. *)
Definition settled (ch : EffectCharacter) : EffectCharacter :=
  drawn_at (input_coord ch) ch.

(** [ceil(a / b)] for a positive [b]. *)
Definition ceil_div (a b : Z) : Z := (a + b - 1) / b.

(** The order of reading: an upper row comes first, and in a row the column
    further left. *)
Definition reads_before (c c' : Coord) : Prop :=
  row c' < row c \/ (row c' = row c /\ column c < column c').

(** A line wrapped to the full: the chunks make up the line, there are
    [ceil(len(line) / w)] of them, all but the last are [w] symbols long and
    the last is not empty. *)
Definition wrapped_as (w : Z) (line : str) (chunks : list str) : Prop :=
  concat chunks = line
  /\ len chunks = ceil_div (len line) w
  /\ Forall (fun ch => len ch = w) (take (length chunks - 1) chunks)
  /\ Forall (fun ch => 1 <= len ch <= w) chunks.

(** ** BinaryRepresentation and the paths of BinaryPathEffect.prepare_data *)

Definition ZERO : char := 48%N.
Definition ONE : char := 49%N.

(** [format(n, "b")] for a positive [n]: the binary digits, the most
    significant first. *)
Fixpoint format_b_pos (p : positive) : str :=
  match p with
  | xH => [ONE]
  | xO p' => format_b_pos p' ++ [ZERO]
  | xI p' => format_b_pos p' ++ [ONE]
  end.

(** [format(n, "b")] *)
Definition format_b (n : N) : str :=
  match n with
  | N0 => [ZERO]
  | Npos p => format_b_pos p
  end.

(** [format(n, "08b")]: the digits, with zeros in front up to a width of 8. *)
Definition format_08b (n : N) : str :=
  replicate (8 - length (format_b n)) ZERO ++ format_b n.

(** [BinaryRepresentation.__init__]: [binary_string] is
    [format(ord(self.character.symbol), "08b")], and [ord] of a symbol is
    its code point. *)
Definition binary_string (character : EffectCharacter) : str :=
  format_08b (symbol character).

(** [int(s, 2)] on a string of binary digits. *)
Definition int_2 (s : str) : N :=
  foldl (fun n d => (2 * n + (d - ZERO))%N) 0%N s.

(** The value of [last_orientation]: ["col"] or ["row"]. *)
Inductive orientation := by_col | by_row.

(** The variables of the loop that builds a path: [path_coords],
    [last_orientation], [next_coord] (a local variable of [prepare_data],
    unbound until the body of the loop has run once in the call), and the
    number of calls of the random generator so far. *)
Record path_state := mkPathState {
  path_coords : list Coord;
  last_orientation : orientation;
  next_coord : option Coord;
  calls : nat
}.

(** [-1], [0] or [1], as the [if]/[elif]/[else] on the two coordinates
    chooses. *)
Definition direction (last target : Z) : Z :=
  if bool_decide (last > target) then -1
  else if bool_decide (last = target) then 0
  else 1.

(** The Manhattan distance of two coordinates. *)
Definition distance (c c' : Coord) : Z :=
  Z.abs (column c - column c') + Z.abs (row c - row c').

Section BinaryPath.

(** The random generator: [randint k a b] is what the call number [k] (of
    all calls of the run) returns when it is [random.randint(a, b)],
    [random_coord k] when it is [output_area.random_coord(outside_scope=True)]
    (of [utils/geometry.py], which is not available), and [random_choice k]
    when it is [random.choice(("col", "row"))]. *)
Variable randint : nat -> Z -> Z -> Z.
Variable random_coord : nat -> Coord.
Variable random_choice : nat -> orientation.

(** [int(self.terminal.input_width * 0.2)], a floating-point product that
    is taken as given. *)
Variable row_reach : Z.

(** [random.randint(a, b)]: [ValueError] on an empty range. *)
Definition py_randint (k : nat) (a b : Z) : outcome Z :=
  if bool_decide (a <= b) then Ok (randint k a b) else Raise ValueError.

(** The body of [while path_coords[-1] != bin_rep.character.input_coord]. *)
Definition path_step (target : Coord) (st : path_state) (last_coord : Coord)
  : outcome path_state :=
  let column_direction := direction (column last_coord) (column target) in
  let row_direction := direction (row last_coord) (row target) in
  let max_column_distance := Z.abs (column last_coord - column target) in
  let max_row_distance := Z.abs (row last_coord - row target) in
  match last_orientation st with
  | by_col =>
      if bool_decide (max_row_distance > 0) then
        call r <- py_randint (calls st) 1 (Z.min max_row_distance (Z.max 10 row_reach)) in
        let next := mkCoord (column last_coord) (row last_coord + r * row_direction) in
        Ok {| path_coords := path_coords st ++ [next]; last_orientation := by_row;
              next_coord := Some next; calls := S (calls st) |}
      else
        Ok {| path_coords := path_coords st ++ [target];
              last_orientation := last_orientation st;
              next_coord := Some target; calls := calls st |}
  | by_row =>
      if bool_decide (max_column_distance > 0) then
        call r <- py_randint (calls st) 1 (Z.min max_column_distance 4) in
        let next := mkCoord (column last_coord + r * column_direction) (row last_coord) in
        Ok {| path_coords := path_coords st ++ [next]; last_orientation := by_col;
              next_coord := Some next; calls := S (calls st) |}
      else
        Ok {| path_coords := path_coords st ++ [target];
              last_orientation := last_orientation st;
              next_coord := Some target; calls := calls st |}
  end.

(** The [while] loop: one unit of fuel per iteration. *)
Fixpoint path_loop (fuel : nat) (target : Coord) (st : path_state) : outcome path_state :=
  match last (path_coords st) with
  | None => Raise IndexError
  | Some last_coord =>
      if bool_decide (last_coord <> target) then
        match fuel with
        | O => OutOfFuel
        | S fuel' =>
            call st' <- path_step target st last_coord in
            path_loop fuel' target st'
        end
      else Ok st
  end.

(** The path of one binary representation, lines 128 to 171 of the loop over
    the representations: the start and the first orientation are drawn, the
    loop runs, and [next_coord] and the input coordinate are appended.  The
    result is [None] where the use of [next_coord] raises
    [UnboundLocalError]. *)
Definition build_path (fuel : nat) (target : Coord) (next : option Coord) (k : nat)
  : outcome (option path_state) :=
  let starting_coord := random_coord k in
  let st := {| path_coords := [starting_coord];
               last_orientation := random_choice (S k);
               next_coord := next; calls := S (S k) |} in
  call st <- path_loop fuel target st in
  match next_coord st with
  | None => Ok None
  | Some next =>
      Ok (Some {| path_coords := (path_coords st ++ [next]) ++ [target];
                  last_orientation := last_orientation st;
                  next_coord := next_coord st; calls := calls st |})
  end.

End BinaryPath.

(** Two coordinates in a row or in a column, the second one nearer to the
    target: a leg of a path. *)
Definition leg (target c c' : Coord) : Prop :=
  (column c = column c' \/ row c = row c')
  /\ Z.abs (column c' - column target) <= Z.abs (column c - column target)
  /\ Z.abs (row c' - row target) <= Z.abs (row c - row target)
  /\ distance c' target < distance c target.

(** A leg as the loop makes it: a leg that ends at the target, or goes up or
    down by at most [max(10, row_reach)] rows, or left or right by at most 4
    columns. *)
Definition drawn_leg (row_reach : Z) (target c c' : Coord) : Prop :=
  leg target c c'
  /\ (c' = target
      \/ (column c' = column c /\ Z.abs (row c' - row c) <= Z.max 10 row_reach)
      \/ (row c' = row c /\ Z.abs (column c' - column c) <= 4)).

(** ** RainEffect.prepare_data and the loop of RainEffect.run *)

(** [sorted(l, key=key)]: ascending in the key and stable, elements of equal
    key keep their order. *)
Fixpoint insert_by_key {X} (key : X -> Z) (x : X) (l : list X) : list X :=
  match l with
  | [] => [x]
  | y :: l' =>
      if bool_decide (key x <= key y) then x :: l else y :: insert_by_key key x l'
  end.

Definition py_sorted {X} (key : X -> Z) (l : list X) : list X :=
  foldr (insert_by_key key) [] l.

(** [l.pop(i)] *)
Definition py_pop {X} (l : list X) (i : Z) : outcome (X * list X) :=
  call p <- Py.index (len l) i in
  match l !! p with
  | Some x => Ok (x, delete p l)
  | None => Raise IndexError
  end.

(** The entry of a dictionary with the least key. *)
Definition min_entry {V} (d : gmap Z V) : option (Z * V) :=
  foldr (fun kv best =>
           match best with
           | Some b => if bool_decide (kv.1 <= b.1) then Some kv else Some b
           | None => Some kv
           end) None (map_to_list d).

(** [d.pop(min(d.keys()))]: [min] raises [ValueError] on an empty dictionary,
    and its result is a key of [d], which [pop] therefore finds. *)
Definition pop_min {V} (d : gmap Z V) : outcome (V * gmap Z V) :=
  match min_entry d with
  | None => Raise ValueError
  | Some (k, v) => Ok (v, delete k d)
  end.

Module Rain.

(** The attributes of a [RainEffect] that [prepare_data] and [run] use.
    Those of the base class [effect.Effect], a module that is not available,
    are taken as they are found.  The characters are the objects of
    [self.characters]; the other lists and the groups hold references to
    them, here their positions in [characters], so that a character moved
    through one list is the one the others refer to. *)
Record RainEffect := mkRainEffect {
  characters : list EffectCharacter;
  pending_chars : list nat;
  animating_chars : list nat;
  group_by_row : gmap Z (list nat);
  input_height : Z;
  terminal_height : Z
}.

(** [character.current_coord.column = x] and [character.current_coord.row = y];
    the current coordinate and the input coordinate of a character are two
    objects. *)
Definition set_column (x : Z) (ch : EffectCharacter) : EffectCharacter :=
  {| symbol := symbol ch; input_coord := input_coord ch;
     current_coord := mkCoord x (row (current_coord ch));
     is_active := is_active ch; layer := layer ch |}.

Definition set_row (y : Z) (ch : EffectCharacter) : EffectCharacter :=
  {| symbol := symbol ch; input_coord := input_coord ch;
     current_coord := mkCoord (column (current_coord ch)) y;
     is_active := is_active ch; layer := layer ch |}.

(** The body of the first loop of [prepare_data], for the character at
    position [i]. *)
Definition prepare_character (e : RainEffect) (i : nat) : RainEffect :=
  let place ch :=
    let ch := set_column (column (input_coord ch)) ch in
    set_row (Z.min (input_height e) (terminal_height e - 1)) ch in
  {| characters := alter place i (characters e);
     pending_chars := pending_chars e ++ [i];
     animating_chars := animating_chars e;
     group_by_row := group_by_row e;
     input_height := input_height e;
     terminal_height := terminal_height e |}.

(** [character.input_coord.row] of the character that [i] refers to (0 for a
    position outside [cs], which is no reference to a character). *)
Definition input_row (cs : list EffectCharacter) (i : nat) : Z :=
  from_option (fun ch => row (input_coord ch)) 0 (cs !! i).

(** The body of the second loop of [prepare_data]. *)
Definition add_to_group (cs : list EffectCharacter) (groups : gmap Z (list nat)) (i : nat)
  : gmap Z (list nat) :=
  let r := input_row cs i in
  let groups := if decide (groups !! r = None) then <[r := []]> groups else groups in
  alter (fun group => group ++ [i]) r groups.

(** [RainEffect.prepare_data] *)
Definition prepare_data (e : RainEffect) : RainEffect :=
  let e := foldl prepare_character e (seq 0 (length (characters e))) in
  {| characters := characters e;
     pending_chars := pending_chars e;
     animating_chars := animating_chars e;
     group_by_row :=
       foldl (add_to_group (characters e)) (group_by_row e)
         (py_sorted (input_row (characters e)) (pending_chars e));
     input_height := input_height e;
     terminal_height := terminal_height e |}.

(** [self.pending_chars.clear()] *)
Definition clear_pending (e : RainEffect) : RainEffect :=
  {| characters := characters e;
     pending_chars := [];
     animating_chars := animating_chars e;
     group_by_row := group_by_row e;
     input_height := input_height e;
     terminal_height := terminal_height e |}.

Section Run.

(** [move], [step_animation], [graphical_effect.disable_modes] and
    [animation_completed] of the characters are methods of a class whose
    module is not available; [randint k a b] is the result of
    [random.randint(a, b)] when it is the [k]-th random draw. *)
Variables move step_animation disable_modes : EffectCharacter -> EffectCharacter.
Variable animation_completed : EffectCharacter -> bool.
Variable randint : nat -> Z -> Z -> Z.

(** [while self.group_by_row or self.animating_chars or self.pending_chars] *)
Definition busy (e : RainEffect) : bool :=
  bool_decide (group_by_row e <> ∅)
  || bool_decide (animating_chars e <> [])
  || bool_decide (pending_chars e <> []).

(** Lines 34 and 35: with no character pending, the group of the least row
    becomes the pending characters. *)
Definition release (e : RainEffect) : outcome RainEffect :=
  if bool_decide (pending_chars e = []) && bool_decide (group_by_row e <> ∅) then
    call popped <- pop_min (group_by_row e) in
    Ok {| characters := characters e;
          pending_chars := pending_chars e ++ popped.1;
          animating_chars := animating_chars e;
          group_by_row := popped.2;
          input_height := input_height e;
          terminal_height := terminal_height e |}
  else Ok e.

(** The [for _ in range(n)] loop of lines 37 to 43, [k] random draws having
    been made: the result is the pending and the animating characters and
    the number of draws. *)
Fixpoint draw (n : nat) (k : nat) (pending animating : list nat)
  : outcome (list nat * list nat * nat) :=
  match n with
  | O => Ok (pending, animating, k)
  | S n' =>
      if bool_decide (pending <> []) then
        call i <- py_randint randint k 0 (len pending - 1) in
        call popped <- py_pop pending i in
        draw n' (S k) popped.2 (animating ++ [popped.1])
      else Ok (pending, animating, k)
  end.

(** Lines 36 to 43. *)
Definition start_some (k : nat) (pending animating : list nat)
  : outcome (list nat * list nat * nat) :=
  if bool_decide (pending <> []) then
    call n <- py_randint randint k 1 3 in
    draw (Z.to_nat n) (S k) pending animating
  else Ok (pending, animating, k).

(** One pass of the body of the loop of [run], [k] random draws having been
    made: the result is the effect, the number of draws, and the characters
    as [print_character] got them. *)
Definition pass (e : RainEffect) (k : nat)
  : outcome (RainEffect * nat * list EffectCharacter) :=
  call e <- release e in
  call started <- start_some k (pending_chars e) (animating_chars e) in
  let '(pending, animating, k) := started in
  let '(cs, printed) :=
    rain_animate_chars move step_animation disable_modes animating (characters e) in
  Ok ({| characters := cs;
         pending_chars := pending;
         animating_chars :=
           filter (fun i => animation_completed <$> cs !! i = Some false) animating;
         group_by_row := group_by_row e;
         input_height := input_height e;
         terminal_height := terminal_height e |}, k, printed).

(** The loop of [run]: one unit of fuel per pass. *)
Fixpoint loop (fuel : nat) (e : RainEffect) (k : nat) : outcome (RainEffect * nat) :=
  if busy e then
    match fuel with
    | O => OutOfFuel
    | S fuel' =>
        call r <- pass e k in
        loop fuel' r.1.1 r.1.2
    end
  else Ok (e, k).

End Run.

(** The references of an effect: those of the groups, the pending and the
    animating ones. *)
Definition refs (e : RainEffect) : list nat :=
  concat (snd <$> map_to_list (group_by_row e)) ++ pending_chars e ++ animating_chars e.

End Rain.

(** The character at another coordinate, active or not as it is. *)
Definition standing_at (c : Coord) (ch : EffectCharacter) : EffectCharacter :=
  {| symbol := symbol ch;
     input_coord := input_coord ch;
     current_coord := c;
     is_active := is_active ch;
     layer := layer ch |}.

(** The coordinate that a coordinate is drawn at, when one of its row and
    column is not positive but an index that a list accepts from its end:
    a row from [1 - top] to 0 counts from the top row down, a column from
    [1 - right] to 0 from the right column to the left. *)
Definition counted_from_end (area : OutputArea) (c : Coord) : Coord :=
  mkCoord
    (if bool_decide (- Z.max 0 (right area) < column c <= 0)
     then column c + right area else column c)
    (if bool_decide (- Z.max 0 (top area) < row c <= 0)
     then row c + top area else row c).

(** * Properties *)

Example splitlines_ex1 :
  Py.splitlines (str_of_string "ab c") = [str_of_string "ab c"].
Proof. reflexivity. Qed.

Example decompose_ex1 :
  _decompose_input 0 5 (str_of_string "AB") =
  Ok [new_EffectCharacter 65%N 1 1; new_EffectCharacter 66%N 2 1].
Proof. reflexivity. Qed.

Example render_ex1 :
  _update_terminal_state (new_OutputArea 1 2)
    [mkEffectCharacter A (mkCoord 1 1) (mkCoord 1 1) true 0;
     mkEffectCharacter B (mkCoord 2 1) (mkCoord 2 1) true 0]
  = Ok [[A; B]].
Proof. reflexivity. Qed.

Example init_ex1 :
  Terminal_init 0 (str_of_string "AB") (80, 24)
  = Ok (mkTerminal (str_of_string "AB") 80 24
          [new_EffectCharacter A 1 1; new_EffectCharacter B 2 1] 2 1
          (new_OutputArea 1 2) [[SPACE; SPACE]],
        [Text [LF; LF]]).
Proof. reflexivity. Qed.

(** ** Outcomes *)

Lemma bind_Ok {X Y} (m : outcome X) (k : X -> outcome Y) (b : Y) :
  bind m k = Ok b <-> exists a, m = Ok a /\ k a = Ok b.
Proof.
  destruct m as [a | e |]; simpl; split.
  - intros H. exists a. auto.
  - intros (a' & Ha & Hk). congruence.
  - discriminate.
  - intros (a' & Ha & _). discriminate.
  - discriminate.
  - intros (a' & Ha & _). discriminate.
Qed.

(** ** Slices and the wrapping loop *)

Section Slices.
Context {X : Type}.
Implicit Types (l : list X) (k : Z).

Lemma slice_to_from k l : Py.slice_to k l ++ Py.slice_from k l = l.
Proof. apply take_drop. Qed.

Lemma slice_from_zero l : Py.slice_from 0 l = l.
Proof. unfold Py.slice_from, Py.clamp, len. simpl. destruct l; reflexivity. Qed.

Lemma clamp_inside k l : 0 <= k <= len l -> Py.clamp (len l) k = Z.to_nat k.
Proof.
  intros Hk. unfold Py.clamp.
  destruct (Z.ltb_spec k 0); [lia |]. f_equal. lia.
Qed.

Lemma slice_to_length k l :
  0 <= k <= len l -> length (Py.slice_to k l) = Z.to_nat k.
Proof.
  intros Hk. unfold Py.slice_to. rewrite clamp_inside by assumption.
  rewrite length_take. unfold len in Hk. lia.
Qed.

Lemma slice_from_length k l :
  0 <= k <= len l -> length (Py.slice_from k l) = (length l - Z.to_nat k)%nat.
Proof.
  intros Hk. unfold Py.slice_from. rewrite clamp_inside by assumption.
  apply length_drop.
Qed.

(** A negative bound keeps the last [-k] elements, all of them when the
    sequence is no longer than that. *)
Lemma slice_from_short k l :
  k < 0 -> len l <= - k -> Py.slice_from k l = l.
Proof.
  intros Hk Hl. unfold Py.slice_from, Py.clamp.
  destruct (Z.ltb_spec k 0); [| lia].
  replace (Z.to_nat (Z.max 0 (len l + k))) with 0%nat by lia. reflexivity.
Qed.
End Slices.

(** One iteration of the loop makes progress exactly when the width is
    positive. *)
Lemma wrap_progress (w : Z) :
  (forall line : str, len line > w ->
     (length (Py.slice_from w line) < length line)%nat) <-> 1 <= w.
Proof.
  split.
  - intros H. destruct (Z_lt_le_dec w 1) as [Hw | Hw]; [| assumption].
    exfalso. specialize (H [SPACE]).
    assert (Hs : Py.slice_from w [SPACE] = [SPACE]).
    { destruct (Z.eq_dec w 0) as [-> | Hne].
      - apply slice_from_zero.
      - apply slice_from_short; unfold len; simpl; lia. }
    rewrite Hs in H. unfold len in H. simpl in H. lia.
  - intros Hw line Hlen. rewrite slice_from_length by lia.
    unfold len in Hlen. lia.
Qed.

(** With enough fuel the loop cuts [line] into full chunks and a rest. *)
Lemma wrap_loop_enough (w : Z) (fuel : nat) :
  1 <= w ->
  forall (line : str) (acc : list str),
    (length line <= fuel)%nat ->
    exists chunks last,
      wrap_loop fuel w line acc = Ok (last, acc ++ chunks)
      /\ concat chunks ++ last = line
      /\ Forall (fun ch => len ch = w) chunks
      /\ len last <= w
      /\ (line <> [] -> last <> []).
Proof.
  intros Hw. induction fuel as [| fuel IH]; intros line acc Hfuel.
  - destruct line; [| simpl in Hfuel; lia].
    exists [], []. simpl. rewrite bool_decide_false by (unfold len; simpl; lia).
    rewrite app_nil_r. repeat split; auto; unfold len; simpl; lia.
  - simpl. case_bool_decide as Hlong.
    + destruct (IH (Py.slice_from w line) (acc ++ [Py.slice_to w line]))
        as (chunks & last & Hrun & Hcat & Hfull & Hlast & Hne).
      { rewrite slice_from_length by lia. unfold len in Hlong. lia. }
      exists (Py.slice_to w line :: chunks), last.
      rewrite Hrun, <- app_assoc. simpl. repeat split.
      * rewrite <- app_assoc, Hcat. apply slice_to_from.
      * constructor; [| assumption].
        unfold len. rewrite slice_to_length by lia. lia.
      * assumption.
      * intros _. apply Hne. intros Hnil.
        apply (f_equal length) in Hnil. rewrite slice_from_length in Hnil by lia.
        unfold len in Hlong. simpl in Hnil. lia.
    + exists [], line. rewrite app_nil_r. simpl. repeat split; auto; lia.
Qed.

(** At width 0, and below, the loop never ends on a line it enters with. *)
Lemma wrap_loop_stuck (w : Z) (fuel : nat) (line : str) (acc : list str) :
  w <= 0 -> line <> [] -> Py.slice_from w line = line ->
  wrap_loop fuel w line acc = OutOfFuel.
Proof.
  intros Hw Hne Hfix. revert acc. induction fuel as [| fuel IH]; intros acc; simpl.
  - rewrite bool_decide_true; [reflexivity |].
    destruct line; [congruence | unfold len; simpl; lia].
  - rewrite bool_decide_true.
    + rewrite Hfix. apply IH.
    + destruct line; [congruence | unfold len; simpl; lia].
Qed.

Lemma wrap_lines_enough (w : Z) (fuel : nat) :
  1 <= w ->
  forall (input_lines : list str) (acc : list str),
    Forall (fun line => (length line <= fuel)%nat) input_lines ->
    exists chunkss,
      wrap_lines fuel w input_lines acc = Ok (acc ++ concat chunkss)
      /\ Forall2 (chunks_of w) input_lines chunkss.
Proof.
  intros Hw input_lines. induction input_lines as [| line rest IH]; intros acc Hfuel.
  - exists []. simpl. rewrite app_nil_r. split; [reflexivity | constructor].
  - apply Forall_cons in Hfuel as [Hline Hrest].
    destruct (wrap_loop_enough w fuel Hw line acc Hline)
      as (chunks & last & Hrun & Hcat & Hfull & Hlast & Hne).
    simpl. rewrite Hrun. simpl.
    destruct last as [| s last].
    + destruct (IH (acc ++ chunks) Hrest) as (chunkss & Hrec & Hall).
      exists (chunks :: chunkss). rewrite Hrec. simpl. rewrite app_assoc.
      split; [reflexivity |]. constructor; [| assumption].
      split; [rewrite app_nil_r in Hcat; assumption |].
      eapply Forall_impl; [exact Hfull |]. simpl. intros ch Hch. lia.
    + destruct (IH ((acc ++ chunks) ++ [s :: last]) Hrest) as (chunkss & Hrec & Hall).
      exists ((chunks ++ [s :: last]) :: chunkss). rewrite Hrec. simpl.
      rewrite !app_assoc.
      split; [reflexivity |]. constructor; [| assumption]. split.
      * rewrite concat_app. simpl. rewrite app_nil_r. assumption.
      * apply Forall_app. split.
        -- eapply Forall_impl; [exact Hfull |]. simpl. intros ch Hch. lia.
        -- constructor; [| constructor]. split; [unfold len; simpl; lia | assumption].
Qed.

(** ** [str.splitlines] *)

(** The induction that follows the calls of [splitlines_from]. *)
Lemma splitlines_from_ind (P : str -> str -> list str -> Prop) :
  (forall line, P line [] (match line with [] => [] | _ => [line] end)) ->
  (forall line c rest,
      Py.is_linebreak c = false ->
      P (line ++ [c]) rest (Py.splitlines_from (line ++ [c]) rest) ->
      P line (c :: rest) (Py.splitlines_from (line ++ [c]) rest)) ->
  (forall line c, Py.is_linebreak c = true -> P line [c] [line]) ->
  (forall line rest,
      P [] rest (Py.splitlines_from [] rest) ->
      P line (CR :: LF :: rest) (line :: Py.splitlines_from [] rest)) ->
  (forall line c c' rest,
      Py.is_linebreak c = true -> ~ (c = CR /\ c' = LF) ->
      P [] (c' :: rest) (Py.splitlines_from [] (c' :: rest)) ->
      P line (c :: c' :: rest) (line :: Py.splitlines_from [] (c' :: rest))) ->
  forall line s, P line s (Py.splitlines_from line s).
Proof.
  intros Hnil Hchar Hlast Hcrlf Hbreak line s.
  remember (length s) as n eqn:Hn. revert line s Hn.
  induction n as [n IH] using lt_wf_ind. intros line s Hn.
  destruct s as [| c rest]; [apply Hnil |].
  cbn [Py.splitlines_from].
  destruct (Py.is_linebreak c) eqn:Hc.
  - destruct rest as [| c' rest']; [apply Hlast; assumption |].
    destruct (bool_decide (c = CR)) eqn:Hcr, (bool_decide (c' = LF)) eqn:Hlf; simpl.
    + apply bool_decide_eq_true in Hcr, Hlf. subst c c'.
      apply Hcrlf. apply (IH (length rest')); [simpl in Hn; lia | reflexivity].
    + apply bool_decide_eq_false in Hlf.
      apply Hbreak; [assumption | tauto |].
      apply (IH (length (c' :: rest'))); [simpl in *; lia | reflexivity].
    + apply bool_decide_eq_false in Hcr.
      apply Hbreak; [assumption | tauto |].
      apply (IH (length (c' :: rest'))); [simpl in *; lia | reflexivity].
    + apply bool_decide_eq_false in Hcr.
      apply Hbreak; [assumption | tauto |].
      apply (IH (length (c' :: rest'))); [simpl in *; lia | reflexivity].
  - apply Hchar; [assumption |].
    apply (IH (length rest)); [simpl in Hn; lia | reflexivity].
Qed.

(** No line is longer than the text. *)
Lemma splitlines_from_length (line s : str) :
  Forall (fun l => (length l <= length line + length s)%nat) (Py.splitlines_from line s).
Proof.
  apply (splitlines_from_ind
           (fun line s r => Forall (fun l => (length l <= length line + length s)%nat) r)).
  - intros [| c l]; [constructor |].
    constructor; [simpl; lia | constructor].
  - intros l c rest _ IH. eapply Forall_impl; [exact IH |].
    simpl. intros x. rewrite length_app. simpl. lia.
  - intros l c _. constructor; [lia | constructor].
  - intros l rest IH. constructor; [lia |].
    eapply Forall_impl; [exact IH |]. simpl. intros x. lia.
  - intros l c c' rest _ _ IH. constructor; [lia |].
    eapply Forall_impl; [exact IH |]. simpl. intros x. lia.
Qed.

(** A symbol of a line is a symbol of the text, and not a line boundary. *)
Lemma splitlines_from_sound (line s : str) :
  forall l c, l ∈ Py.splitlines_from line s -> c ∈ l ->
    c ∈ line \/ (c ∈ s /\ Py.is_linebreak c = false).
Proof.
  apply (splitlines_from_ind
           (fun line s r => forall l c, l ∈ r -> c ∈ l ->
              c ∈ line \/ (c ∈ s /\ Py.is_linebreak c = false))).
  - intros [| x l0] l c Hl Hc.
    + inversion Hl.
    + apply list_elem_of_singleton in Hl. subst l. left. assumption.
  - intros l0 x rest Hx IH l c Hl Hc.
    destruct (IH l c Hl Hc) as [Hin | [Hin Hb]].
    + apply elem_of_app in Hin as [Hin | Hin]; [left; assumption |].
      apply list_elem_of_singleton in Hin. subst c. right. split; [left | assumption].
    + right. split; [right; assumption | assumption].
  - intros l0 x _ l c Hl Hc.
    apply list_elem_of_singleton in Hl. subst l. left. assumption.
  - intros l0 rest IH l c Hl Hc.
    apply elem_of_cons in Hl as [-> | Hl]; [left; assumption |].
    destruct (IH l c Hl Hc) as [Hin | [Hin Hb]]; [inversion Hin |].
    right. split; [do 2 right; assumption | assumption].
  - intros l0 x x' rest _ _ IH l c Hl Hc.
    apply elem_of_cons in Hl as [-> | Hl]; [left; assumption |].
    destruct (IH l c Hl Hc) as [Hin | [Hin Hb]]; [inversion Hin |].
    right. split; [right; assumption | assumption].
Qed.

(** A symbol of the text that is not a line boundary is on one of the lines. *)
Lemma splitlines_from_complete (line s : str) :
  forall c, c ∈ line \/ (c ∈ s /\ Py.is_linebreak c = false) ->
    exists l, l ∈ Py.splitlines_from line s /\ c ∈ l.
Proof.
  apply (splitlines_from_ind
           (fun line s r => forall c,
              c ∈ line \/ (c ∈ s /\ Py.is_linebreak c = false) ->
              exists l, l ∈ r /\ c ∈ l)).
  - intros l0 c [Hin | [Hin _]]; [| inversion Hin].
    destruct l0; [inversion Hin |]. eexists. split; [left | assumption].
  - intros l0 x rest Hx IH c Hc. apply IH.
    destruct Hc as [Hin | [Hin Hb]].
    + left. apply elem_of_app. left. assumption.
    + apply elem_of_cons in Hin as [-> | Hin].
      * left. apply elem_of_app. right. left.
      * right. split; assumption.
  - intros l0 x Hx c [Hin | [Hin Hb]].
    + exists l0. split; [left | assumption].
    + apply list_elem_of_singleton in Hin. subst c. congruence.
  - intros l0 rest IH c [Hin | [Hin Hb]].
    + exists l0. split; [left | assumption].
    + apply elem_of_cons in Hin as [-> | Hin]; [discriminate Hb |].
      apply elem_of_cons in Hin as [-> | Hin]; [discriminate Hb |].
      destruct (IH c) as (l & Hl & Hc); [right; split; assumption |].
      exists l. split; [right; assumption | assumption].
  - intros l0 x x' rest Hx _ IH c [Hin | [Hin Hb]].
    + exists l0. split; [left | assumption].
    + apply elem_of_cons in Hin as [-> | Hin]; [congruence |].
      destruct (IH c) as (l & Hl & Hc); [right; split; assumption |].
      exists l. split; [right; assumption | assumption].
Qed.

(** ** The two [enumerate] loops *)

Lemma decompose_line_symbols (H r c : Z) (line : str) :
  symbol <$> decompose_line H r c line = filter (fun s => s <> SPACE) line.
Proof.
  revert c. induction line as [| s line IH]; intros c; [reflexivity |].
  cbn [decompose_line]. rewrite fmap_app, IH, filter_cons.
  case_bool_decide; case_decide; try tauto; reflexivity.
Qed.

Lemma decompose_line_spec (H r c : Z) (line : str) (ch : EffectCharacter) :
  ch ∈ decompose_line H r c line <->
  exists (i : nat) (s : char),
    line !! i = Some s /\ s <> SPACE
    /\ ch = new_EffectCharacter s (c + Z.of_nat i + 1) (H - r).
Proof.
  revert c. induction line as [| s line IH]; intros c.
  - split; [intros Hin; inversion Hin | intros (i & s & Hi & _); discriminate].
  - cbn [decompose_line]. rewrite elem_of_app, IH. split.
    + intros [Hhd | (i & s' & Hi & Hs & ->)].
      * case_bool_decide as Hs; [| inversion Hhd].
        apply list_elem_of_singleton in Hhd. subst ch.
        exists 0%nat, s. repeat split; auto. f_equal. lia.
      * exists (S i), s'. repeat split; auto. f_equal. lia.
    + intros ([| i] & s' & Hi & Hs & ->).
      * simpl in Hi. injection Hi as ->. left.
        rewrite bool_decide_true by assumption.
        apply list_elem_of_singleton. f_equal. lia.
      * right. exists i, s'. repeat split; auto. f_equal. lia.
Qed.

Lemma decompose_line_NoDup (H r c : Z) (line : str) :
  NoDup (input_coord <$> decompose_line H r c line).
Proof.
  revert c. induction line as [| s line IH]; intros c; [constructor |].
  cbn [decompose_line]. case_bool_decide; [| apply IH].
  simpl. constructor; [| apply IH].
  intros Hin. apply list_elem_of_fmap in Hin as (ch & Heq & Hin).
  apply decompose_line_spec in Hin as (i & s' & _ & _ & ->).
  simpl in Heq. injection Heq. lia.
Qed.

Lemma decompose_rows_symbols (H r : Z) (lines : list str) :
  symbol <$> decompose_rows H r lines = filter (fun s => s <> SPACE) (concat lines).
Proof.
  revert r. induction lines as [| line lines IH]; intros r; [reflexivity |].
  cbn [decompose_rows concat]. rewrite fmap_app, filter_app, IH, decompose_line_symbols.
  reflexivity.
Qed.

Lemma decompose_rows_spec (H r : Z) (lines : list str) (ch : EffectCharacter) :
  ch ∈ decompose_rows H r lines <->
  exists (j : nat) (line : str) (i : nat) (s : char),
    lines !! j = Some line /\ line !! i = Some s /\ s <> SPACE
    /\ ch = new_EffectCharacter s (Z.of_nat i + 1) (H - (r + Z.of_nat j)).
Proof.
  revert r. induction lines as [| line lines IH]; intros r.
  - split; [intros Hin; inversion Hin | intros (j & l & _ & _ & Hj & _); discriminate].
  - cbn [decompose_rows]. rewrite elem_of_app, IH, decompose_line_spec. split.
    + intros [(i & s & Hi & Hs & ->) | (j & l & i & s & Hj & Hi & Hs & ->)].
      * exists 0%nat, line, i, s. repeat split; auto. f_equal; lia.
      * exists (S j), l, i, s. repeat split; auto. f_equal; lia.
    + intros ([| j] & l & i & s & Hj & Hi & Hs & ->).
      * simpl in Hj. injection Hj as ->. left.
        exists i, s. repeat split; auto. f_equal; lia.
      * right. exists j, l, i, s. repeat split; auto. f_equal; lia.
Qed.

Lemma decompose_rows_NoDup (H r : Z) (lines : list str) :
  NoDup (input_coord <$> decompose_rows H r lines).
Proof.
  revert r. induction lines as [| line lines IH]; intros r; [constructor |].
  cbn [decompose_rows]. rewrite fmap_app. apply NoDup_app. split; [| split].
  - apply decompose_line_NoDup.
  - intros xy Hl Hr.
    apply list_elem_of_fmap in Hl as (ch & -> & Hl).
    apply list_elem_of_fmap in Hr as (ch' & Heq & Hr).
    apply decompose_line_spec in Hl as (i & s & _ & _ & ->).
    apply decompose_rows_spec in Hr as (j & l & i' & s' & _ & _ & _ & ->).
    simpl in Heq. injection Heq. lia.
  - apply IH.
Qed.

(** More fuel does not change a result. *)
Lemma wrap_loop_mono (fuel fuel' : nat) (w : Z) (line : str) (acc : list str) r :
  (fuel <= fuel')%nat ->
  wrap_loop fuel w line acc = Ok r -> wrap_loop fuel' w line acc = Ok r.
Proof.
  revert fuel' line acc.
  induction fuel as [| fuel IH]; intros fuel' line acc Hle Hrun.
  - simpl in Hrun. case_bool_decide as Hlong; [discriminate |].
    destruct fuel'; simpl; rewrite bool_decide_false by assumption; assumption.
  - destruct fuel' as [| fuel']; [lia |].
    simpl in *. case_bool_decide as Hlong; [| assumption].
    apply IH; [lia | assumption].
Qed.

Lemma wrap_lines_mono (fuel fuel' : nat) (w : Z) (input_lines : list str) (acc : list str) r :
  (fuel <= fuel')%nat ->
  wrap_lines fuel w input_lines acc = Ok r -> wrap_lines fuel' w input_lines acc = Ok r.
Proof.
  intros Hle. revert acc.
  induction input_lines as [| line rest IH]; intros acc Hrun; [assumption |].
  simpl in *. apply bind_Ok in Hrun as ([last acc'] & Hloop & Hrest).
  rewrite (wrap_loop_mono fuel fuel' _ _ _ _ Hle Hloop). simpl.
  apply IH. assumption.
Qed.

Lemma decompose_input_mono (fuel fuel' : nat) (w : Z) (input : str) cs :
  (fuel <= fuel')%nat ->
  _decompose_input fuel w input = Ok cs -> _decompose_input fuel' w input = Ok cs.
Proof.
  intros Hle Hrun. unfold _decompose_input in *.
  apply bind_Ok in Hrun as (wrapped & Hwrap & Hcs).
  rewrite (wrap_lines_mono fuel fuel' _ _ _ _ Hle Hwrap). assumption.
Qed.

(** ** Decomposition *)

(** With a positive width and fuel for the longest line, decomposition
    returns: the lines are wrapped and the wrapped lines are enumerated. *)
Lemma decompose_enough (w : Z) (fuel : nat) (input : str) :
  1 <= w -> (length input <= fuel)%nat ->
  exists chunkss : list (list str),
    Forall2 (chunks_of w) (Py.splitlines input) chunkss
    /\ wrap_lines fuel w (Py.splitlines input) [] = Ok (concat chunkss)
    /\ _decompose_input fuel w input
       = Ok (decompose_rows (len (concat chunkss)) 0 (concat chunkss)).
Proof.
  intros Hw Hfuel.
  destruct (wrap_lines_enough w fuel Hw (Py.splitlines input) []) as (chunkss & Hrun & Hall).
  { eapply Forall_impl; [apply splitlines_from_length |]. simpl. intros l Hl. lia. }
  exists chunkss. simpl in Hrun. unfold _decompose_input. rewrite Hrun. auto.
Qed.

Lemma chunks_width (w : Z) (lines : list str) (chunkss : list (list str)) :
  Forall2 (chunks_of w) lines chunkss ->
  Forall (fun ch => 1 <= len ch <= w) (concat chunkss).
Proof.
  induction 1 as [| line chunks lines chunkss [_ Hch] _ IH]; simpl.
  - constructor.
  - apply Forall_app. split; assumption.
Qed.

Lemma chunks_concat (w : Z) (lines : list str) (chunkss : list (list str)) :
  Forall2 (chunks_of w) lines chunkss ->
  concat (concat chunkss) = concat lines.
Proof.
  induction 1 as [| line chunks lines chunkss [Hcat _] _ IH]; simpl.
  - reflexivity.
  - rewrite concat_app, Hcat, IH. reflexivity.
Qed.

(** C3. For every input text and every terminal width [w >= 1], each input
    line is wrapped into chunks of at most [w] symbols (the chunks of a line
    make up the line and none is empty), and decomposition produces exactly
    one Character per non-space symbol of the wrapped lines: read in order,
    the symbols of the Characters are the non-space symbols of the wrapped
    lines, no two Characters share an input coordinate, and each Character
    carries the symbol the wrapped lines have at its input coordinate.  No
    Character has the space symbol and every input column is in [1, w]. *)
Theorem decompose_input_wraps_and_skips_spaces
    (input : str) (w : Z) (fuel : nat) :
  1 <= w -> (length input <= fuel)%nat ->
  exists (chunkss : list (list str)) (cs : list EffectCharacter),
    _decompose_input fuel w input = Ok cs
    /\ wrap_lines fuel w (Py.splitlines input) [] = Ok (concat chunkss)
    /\ Forall2 (chunks_of w) (Py.splitlines input) chunkss
    /\ symbol <$> cs = filter (fun s => s <> SPACE) (concat (concat chunkss))
    /\ NoDup (input_coord <$> cs)
    /\ (forall ch, ch ∈ cs ->
          symbol_at (concat chunkss) (input_coord ch) = Some (symbol ch))
    /\ Forall (fun ch => symbol ch <> SPACE) cs
    /\ Forall (fun ch => 1 <= column (input_coord ch) <= w) cs.
Proof.
  intros Hw Hfuel.
  destruct (decompose_enough w fuel input Hw Hfuel) as (chunkss & Hall & Hwrap & Hrun).
  exists chunkss, (decompose_rows (len (concat chunkss)) 0 (concat chunkss)).
  pose proof (chunks_width _ _ _ Hall) as Hwidth.
  rewrite Forall_forall in Hwidth.
  repeat split.
  - exact Hrun.
  - exact Hwrap.
  - exact Hall.
  - apply decompose_rows_symbols.
  - apply decompose_rows_NoDup.
  - intros ch Hch.
    apply decompose_rows_spec in Hch as (j & line & i & s & Hj & Hi & Hs & ->).
    unfold symbol_at. simpl.
    replace (Z.to_nat (len (concat chunkss) - (len (concat chunkss) - (0 + Z.of_nat j))))
      with j by lia.
    rewrite Hj. simpl.
    replace (Z.to_nat (Z.of_nat i + 1 - 1)) with i by lia. exact Hi.
  - apply Forall_forall. intros ch Hch.
    apply decompose_rows_spec in Hch as (j & line & i & s & Hj & Hi & Hs & ->).
    exact Hs.
  - apply Forall_forall. intros ch Hch.
    apply decompose_rows_spec in Hch as (j & line & i & s & Hj & Hi & Hs & ->).
    simpl. apply lookup_lt_Some in Hi.
    specialize (Hwidth line (list_elem_of_lookup_2 _ _ _ Hj)).
    unfold len in Hwidth. lia.
Qed.

Lemma decompose_input_wraps_and_skips_spaces_witness :
  exists (chunkss : list (list str)) (cs : list EffectCharacter),
    _decompose_input 4 2 (str_of_string "a bc") = Ok cs
    /\ wrap_lines 4 2 (Py.splitlines (str_of_string "a bc")) [] = Ok (concat chunkss)
    /\ Forall2 (chunks_of 2) (Py.splitlines (str_of_string "a bc")) chunkss
    /\ symbol <$> cs = filter (fun s => s <> SPACE) (concat (concat chunkss))
    /\ NoDup (input_coord <$> cs)
    /\ (forall ch, ch ∈ cs ->
          symbol_at (concat chunkss) (input_coord ch) = Some (symbol ch))
    /\ Forall (fun ch => symbol ch <> SPACE) cs
    /\ Forall (fun ch => 1 <= column (input_coord ch) <= 2) cs.
Proof.
  apply (decompose_input_wraps_and_skips_spaces (str_of_string "a bc") 2 4).
  - lia.
  - simpl. lia.
Defined.

(** C8. For the input "AB" and any terminal width of at least 2,
    decomposition yields exactly two Characters: 'A' with input coordinate
    (row 1, column 1) and 'B' with input coordinate (row 1, column 2). *)
Theorem decompose_AB (w : Z) (fuel : nat) :
  2 <= w ->
  _decompose_input fuel w (str_of_string "AB")
  = Ok [new_EffectCharacter A 1 1; new_EffectCharacter B 2 1].
Proof.
  intros Hw. unfold _decompose_input.
  change (Py.splitlines (str_of_string "AB")) with [[A; B]].
  assert (Hloop : wrap_loop fuel w [A; B] [] = Ok ([A; B], [])).
  { destruct fuel; simpl; rewrite bool_decide_false by (unfold len; simpl; lia);
      reflexivity. }
  cbn [wrap_lines]. rewrite Hloop. reflexivity.
Qed.

Lemma decompose_AB_witness :
  _decompose_input 0 2 (str_of_string "AB")
  = Ok [new_EffectCharacter A 1 1; new_EffectCharacter B 2 1].
Proof. apply decompose_AB. lia. Defined.

(** C10. For every input string decomposition terminates when the terminal
    width is at least 1: fuel for the length of the input is enough, and the
    result does not depend on the fuel.  An iteration of the wrapping loop
    shortens every line it is entered with exactly when the width is at least
    1; at width 0 the rest of the line is the line itself, and the loop never
    returns on a line that is not empty. *)
Theorem decompose_input_terminates (w : Z) :
  (1 <= w ->
   forall input : str, exists cs,
     forall fuel, (length input <= fuel)%nat -> _decompose_input fuel w input = Ok cs)
  /\ ((forall line : str, len line > w ->
         (length (Py.slice_from w line) < length line)%nat) <-> 1 <= w)
  /\ (w = 0 ->
      forall line : str,
        Py.slice_from w line = line
        /\ (line <> [] -> forall fuel acc, wrap_loop fuel w line acc = OutOfFuel)).
Proof.
  split; [| split].
  - intros Hw input.
    destruct (decompose_enough w (length input) input Hw (le_n _))
      as (chunkss & _ & _ & Hrun).
    eexists. intros fuel Hfuel.
    apply (decompose_input_mono (length input)); [exact Hfuel | exact Hrun].
  - apply wrap_progress.
  - intros -> line. split; [apply slice_from_zero |].
    intros Hne fuel acc. apply wrap_loop_stuck; [lia | exact Hne | apply slice_from_zero].
Qed.

Lemma decompose_input_terminates_witness :
  (exists cs, forall fuel, (length (str_of_string "abc") <= fuel)%nat ->
     _decompose_input fuel 2 (str_of_string "abc") = Ok cs)
  /\ (Py.slice_from 0 [A; B] = [A; B]
      /\ ([A; B] <> [] -> forall fuel acc, wrap_loop fuel 0 [A; B] acc = OutOfFuel)).
Proof.
  split.
  - apply (proj1 (decompose_input_terminates 2)). lia.
  - apply (proj2 (proj2 (decompose_input_terminates 0))). reflexivity.
Defined.

(** ** Construction *)

Lemma foldl_max_spec (l : list Z) (x : Z) :
  x <= foldl Z.max x l
  /\ Forall (fun y => y <= foldl Z.max x l) l
  /\ (foldl Z.max x l = x \/ foldl Z.max x l ∈ l).
Proof.
  revert x. induction l as [| y l IH]; intros x; simpl.
  - repeat split; [lia | constructor | left; reflexivity].
  - destruct (IH (Z.max x y)) as (Hle & Hall & Hin). repeat split.
    + lia.
    + constructor; [lia | assumption].
    + destruct Hin as [Heq | Hin]; [| right; right; assumption].
      rewrite Heq. destruct (Z.max_spec x y) as [[_ ->] | [_ ->]];
        [right; left | left; reflexivity].
Qed.

Lemma max_Ok (l : list Z) (m : Z) : Py.max l = Ok m -> is_maximum m l.
Proof.
  destruct l as [| x l]; [discriminate |]. simpl. intros [= <-].
  destruct (foldl_max_spec l x) as (Hle & Hall & Hin). split.
  - destruct Hin as [-> | Hin]; [left | right; assumption].
  - constructor; assumption.
Qed.

Lemma max_nonempty (l : list Z) : l <> [] -> exists m, Py.max l = Ok m.
Proof. destruct l; [congruence | eexists; reflexivity]. Qed.

(** Characters that are not active leave the buffer as it is. *)
Lemma stamp_all_inactive (rows : list str) (cs : list EffectCharacter) :
  Forall (fun ch => is_active ch = false) cs -> stamp_all rows cs = Ok rows.
Proof.
  induction 1 as [| ch cs Hch _ IH]; [reflexivity |].
  simpl. unfold stamp. rewrite Hch. simpl. exact IH.
Qed.

Lemma decompose_rows_inactive (H r : Z) (lines : list str) :
  Forall (fun ch => is_active ch = false) (decompose_rows H r lines).
Proof.
  apply Forall_forall. intros ch Hch.
  apply decompose_rows_spec in Hch as (j & line & i & s & _ & _ & _ & ->). reflexivity.
Qed.

Lemma decompose_input_inactive (fuel : nat) (w : Z) (input : str) cs :
  _decompose_input fuel w input = Ok cs -> Forall (fun ch => is_active ch = false) cs.
Proof.
  unfold _decompose_input. intros Hrun.
  apply bind_Ok in Hrun as (wrapped & _ & [= <-]). apply decompose_rows_inactive.
Qed.

Lemma Forall_filter_keeps {X} (P Q : X -> Prop) `{!forall x, Decision (Q x)} (l : list X) :
  Forall P l -> Forall P (filter Q l).
Proof.
  rewrite !Forall_forall. intros Hall x Hx.
  apply list_elem_of_filter in Hx as [_ Hx]. auto.
Qed.

Lemma Terminal_init_Ok (fuel : nat) (input : str) (w h : Z) t out :
  Terminal_init fuel input (w, h) = Ok (t, out) <->
  exists cs mw mh,
    _decompose_input fuel w input = Ok cs
    /\ Py.max ((fun c => column (input_coord c)) <$> cs) = Ok mw
    /\ Py.max ((fun c => row (input_coord c)) <$> cs) = Ok mh
    /\ t = built input w h cs mw mh
    /\ out = _prep_outputarea (output_area t).
Proof.
  unfold Terminal_init. split.
  - intros Hrun.
    apply bind_Ok in Hrun as (cs & Hcs & Hrun).
    apply bind_Ok in Hrun as (mw & Hmw & Hrun).
    apply bind_Ok in Hrun as (mh & Hmh & Hrun).
    apply bind_Ok in Hrun as (st & Hst & Hrun).
    unfold _update_terminal_state in Hst.
    rewrite stamp_all_inactive in Hst.
    2:{ apply Forall_filter_keeps. eapply decompose_input_inactive; eassumption. }
    injection Hst as <-. injection Hrun as <- <-.
    exists cs, mw, mh. repeat split; assumption.
  - intros (cs & mw & mh & Hcs & Hmw & Hmh & -> & ->).
    rewrite Hcs. simpl. rewrite Hmw. simpl. rewrite Hmh. simpl.
    unfold _update_terminal_state. rewrite stamp_all_inactive.
    2:{ apply Forall_filter_keeps. eapply decompose_input_inactive; eassumption. }
    reflexivity.
Qed.

Lemma elem_of_concat {X} (ls : list (list X)) (x : X) :
  x ∈ concat ls <-> exists l, x ∈ l /\ l ∈ ls.
Proof.
  rewrite list_elem_of_In, in_concat. split.
  - intros (l & Hl & Hx). exists l. rewrite !list_elem_of_In. auto.
  - intros (l & Hx & Hl). exists l. rewrite <- !list_elem_of_In. auto.
Qed.

Lemma filter_none {X} (P : X -> Prop) `{!forall x, Decision (P x)} (l : list X) :
  Forall (fun x => ~ P x) l -> filter P l = [].
Proof.
  induction 1 as [| x l Hx _ IH]; [reflexivity |].
  rewrite filter_cons_False by assumption. exact IH.
Qed.

(** The symbols on the lines are the symbols of the text that are not line
    boundaries. *)
Lemma splitlines_symbols (input : str) (c : char) :
  c ∈ concat (Py.splitlines input) <-> c ∈ input /\ Py.is_linebreak c = false.
Proof.
  unfold Py.splitlines. rewrite elem_of_concat. split.
  - intros (l & Hc & Hl).
    destruct (splitlines_from_sound [] input l c Hl Hc) as [Hin | Hin];
      [inversion Hin | assumption].
  - intros Hc. destruct (splitlines_from_complete [] input c) as (l & Hl & Hin); eauto.
Qed.

(** A text with a symbol that is neither a space nor a line boundary
    decomposes into at least one character. *)
Lemma decompose_input_nonempty (fuel : nat) (w : Z) (input : str) :
  1 <= w -> (length input <= fuel)%nat ->
  (exists c, c ∈ input /\ c <> SPACE /\ Py.is_linebreak c = false) ->
  exists cs, _decompose_input fuel w input = Ok cs /\ cs <> [].
Proof.
  intros Hw Hfuel (c & Hin & Hsp & Hlb).
  destruct (decompose_enough w fuel input Hw Hfuel) as (chunkss & Hall & _ & Hrun).
  eexists. split; [exact Hrun |]. intros Hnil.
  pose proof (decompose_rows_symbols (len (concat chunkss)) 0 (concat chunkss)) as Hsym.
  rewrite Hnil, (chunks_concat _ _ _ Hall) in Hsym. simpl in Hsym.
  assert (Hc : c ∈ filter (fun s => s <> SPACE) (concat (Py.splitlines input))).
  { apply list_elem_of_filter. split; [assumption |].
    apply splitlines_symbols. split; assumption. }
  rewrite <- Hsym in Hc. inversion Hc.
Qed.

(** A text of spaces and line boundaries decomposes into no character. *)
Lemma decompose_input_blank (fuel : nat) (w : Z) (input : str) :
  1 <= w -> (length input <= fuel)%nat ->
  Forall (fun c => c = SPACE \/ Py.is_linebreak c = true) input ->
  _decompose_input fuel w input = Ok [].
Proof.
  intros Hw Hfuel Hblank.
  destruct (decompose_enough w fuel input Hw Hfuel) as (chunkss & Hall & _ & Hrun).
  rewrite Hrun. f_equal. apply fmap_nil_inv with (f := symbol).
  rewrite decompose_rows_symbols, (chunks_concat _ _ _ Hall).
  apply filter_none, Forall_forall. intros c Hc.
  apply splitlines_symbols in Hc as [Hin Hlb].
  rewrite Forall_forall in Hblank. destruct (Hblank c Hin); [tauto | congruence].
Qed.


(** ** What [print] and the frame loops leave as it is *)

(** [print] writes [terminal_state] and nothing else. *)
Lemma print_frame (t t' : Terminal) out :
  print t = Ok (t', out) ->
  characters t' = characters t /\ output_area t' = output_area t
  /\ input_width t' = input_width t /\ input_height t' = input_height t.
Proof.
  unfold print. intros Hrun. apply bind_Ok in Hrun as (st & _ & [= <- _]).
  repeat split.
Qed.

Lemma prints_frame (n : nat) (t t' : Terminal) out :
  prints n t = Ok (t', out) ->
  characters t' = characters t /\ output_area t' = output_area t.
Proof.
  revert t out. induction n as [| n IH]; intros t out Hrun; simpl in Hrun.
  - injection Hrun as <- _. split; reflexivity.
  - apply bind_Ok in Hrun as ([t1 out1] & Hprint & Hrun).
    apply bind_Ok in Hrun as ([t2 out2] & Hrest & [= <- _]).
    apply print_frame in Hprint as (Hc & Ha & _).
    apply IH in Hrest as (Hc' & Ha'). split; congruence.
Qed.


(** A property that ticks keep holds of all characters after the ticks. *)
Lemma animate_chars_Forall tick (P : EffectCharacter -> Prop)
    (active : list nat) (cs : list EffectCharacter) :
  (forall ch, P ch -> P (tick ch)) ->
  Forall P cs -> Forall P (animate_chars tick active cs).
Proof.
  intros Htick. unfold animate_chars. revert cs.
  induction active as [| i active IH]; intros cs Hall; [exact Hall |].
  cbn [foldl]. apply IH. apply Forall_alter; [exact Hall |].
  intros ch _. apply Htick.
Qed.

(** One pass over the end of the loop body of [BinaryPathEffect.run]: the
    frame is rendered from the characters as the pass finds them, then the
    ticks run, and the output area stays. *)
Lemma run_frame_spec tick (e e' : BinaryPathEffect) (out : list write) :
  run_frame tick e = Ok (e', out) ->
  (exists frame,
      _update_terminal_state (output_area (terminal e)) (characters (terminal e)) = Ok frame
      /\ out = print_rows 0 frame
      /\ terminal_state (terminal e') = frame)
  /\ characters (terminal e') = animate_chars tick (active_chars e) (characters (terminal e))
  /\ output_area (terminal e') = output_area (terminal e).
Proof.
  intros Hrun. unfold run_frame, print in Hrun.
  apply bind_Ok in Hrun as ([t o] & Hprint & [= <- <-]).
  apply bind_Ok in Hprint as (st & Hst & [= <- <-]).
  split; [exists st; repeat split; assumption | split; reflexivity].
Qed.

(** Construction returns on a text with a symbol that is neither a space nor
    a line boundary. *)
Lemma Terminal_init_returns (fuel : nat) (input : str) (w h : Z) :
  1 <= w -> (length input <= fuel)%nat ->
  (exists c, c ∈ input /\ c <> SPACE /\ Py.is_linebreak c = false) ->
  exists cs mw mh,
    _decompose_input fuel w input = Ok cs
    /\ Py.max ((fun c => column (input_coord c)) <$> cs) = Ok mw
    /\ Py.max ((fun c => row (input_coord c)) <$> cs) = Ok mh
    /\ Terminal_init fuel input (w, h)
       = Ok (built input w h cs mw mh,
             _prep_outputarea (output_area (built input w h cs mw mh))).
Proof.
  intros Hw Hfuel Hglyph.
  destruct (decompose_input_nonempty fuel w input Hw Hfuel Hglyph) as (cs & Hcs & Hne).
  destruct (max_nonempty ((fun c => column (input_coord c)) <$> cs)) as (mw & Hmw).
  { intros Hnil. apply fmap_nil_inv in Hnil. contradiction. }
  destruct (max_nonempty ((fun c => row (input_coord c)) <$> cs)) as (mh & Hmh).
  { intros Hnil. apply fmap_nil_inv in Hnil. contradiction. }
  exists cs, mw, mh. repeat split; try assumption.
  apply Terminal_init_Ok. exists cs, mw, mh. repeat split; assumption.
Qed.

(** C2, as stated, fails on a text that is one line feed: it contains a
    symbol that is not a space, and construction raises [ValueError] from
    [max] of an empty list, so that there is no OutputArea. *)
Lemma init_line_feed_counterexample :
  (exists c, c ∈ [LF] /\ c <> SPACE)
  /\ Terminal_init 1 [LF] (80, 24) = Raise ValueError.
Proof.
  split; [| reflexivity].
  exists LF. split; [left | discriminate].
Qed.

(** C2, amended.  On any input with at least one symbol that is neither a
    space nor a line boundary, at a terminal width of at least 1, construction
    returns and the OutputArea has [top = min(terminal_height - 1,
    input_height)] and [right = input_width], where [input_height] and
    [input_width] are the greatest row and the greatest column of the input
    coordinates of the decomposed Characters. *)
Theorem init_output_area (input : str) (w h : Z) (fuel : nat) :
  1 <= w -> (length input <= fuel)%nat ->
  (exists c, c ∈ input /\ c <> SPACE /\ Py.is_linebreak c = false) ->
  exists t out cs input_height input_width,
    Terminal_init fuel input (w, h) = Ok (t, out)
    /\ _decompose_input fuel w input = Ok cs
    /\ is_maximum input_height ((fun c => row (input_coord c)) <$> cs)
    /\ is_maximum input_width ((fun c => column (input_coord c)) <$> cs)
    /\ top (output_area t) = Z.min (h - 1) input_height
    /\ right (output_area t) = input_width.
Proof.
  intros Hw Hfuel Hglyph.
  destruct (Terminal_init_returns fuel input w h Hw Hfuel Hglyph)
    as (cs & mw & mh & Hcs & Hmw & Hmh & Hinit).
  exists (built input w h cs mw mh),
    (_prep_outputarea (output_area (built input w h cs mw mh))), cs, mh, mw.
  split; [exact Hinit | split; [exact Hcs |]].
  split; [exact (max_Ok _ _ Hmh) | split; [exact (max_Ok _ _ Hmw) |]].
  split; reflexivity.
Qed.

Lemma init_output_area_witness :
  exists t out cs input_height input_width,
    Terminal_init 5 (str_of_string "ab" ++ [LF] ++ str_of_string "c") (80, 24) = Ok (t, out)
    /\ _decompose_input 5 80 (str_of_string "ab" ++ [LF] ++ str_of_string "c") = Ok cs
    /\ is_maximum input_height ((fun c => row (input_coord c)) <$> cs)
    /\ is_maximum input_width ((fun c => column (input_coord c)) <$> cs)
    /\ top (output_area t) = Z.min (24 - 1) input_height
    /\ right (output_area t) = input_width.
Proof.
  apply (init_output_area (str_of_string "ab" ++ [LF] ++ str_of_string "c") 80 24 5).
  - lia.
  - simpl. lia.
  - exists 97%N. split; [left | split; [discriminate | reflexivity]].
Defined.






(** C9. After Terminal construction every retained Character has an input
    row no greater than [output_area.top]: the Characters decomposed onto
    rows above the top are dropped at construction, the retained ones are the
    others, and construction returns all the same (on every input that
    decomposes into some Character, at a width of at least 1).  The bound is
    kept by every later operation: by [print], any number of times, which
    leaves the Characters and the OutputArea as they are, and by a pass of the
    frame loop of an effect, whose ticks do not change input coordinates. *)
Theorem retained_rows_within_top (input : str) (w h : Z) (fuel : nat) :
  (1 <= w -> (length input <= fuel)%nat ->
   (exists c, c ∈ input /\ c <> SPACE /\ Py.is_linebreak c = false) ->
   exists t out, Terminal_init fuel input (w, h) = Ok (t, out))
  /\ forall t out,
       Terminal_init fuel input (w, h) = Ok (t, out) ->
       (exists cs,
           _decompose_input fuel w input = Ok cs
           /\ characters t
              = filter (fun c => row (input_coord c) <= top (output_area t)) cs)
       /\ rows_within_top t
       /\ (forall n t' out',
             prints n t = Ok (t', out') ->
             characters t' = characters t /\ rows_within_top t')
       /\ (forall tick e e' out',
             (forall ch, input_coord (tick ch) = input_coord ch) ->
             terminal e = t -> run_frame tick e = Ok (e', out') ->
             rows_within_top (terminal e')).
Proof.
  split.
  - intros Hw Hfuel Hglyph.
    destruct (Terminal_init_returns fuel input w h Hw Hfuel Hglyph)
      as (cs & mw & mh & _ & _ & _ & Hinit).
    eexists _, _. exact Hinit.
  - intros t out Hinit.
    apply Terminal_init_Ok in Hinit as (cs & mw & mh & Hcs & Hmw & Hmh & -> & _).
    assert (Hbound : rows_within_top (built input w h cs mw mh)).
    { apply Forall_forall. intros ch Hch. simpl in Hch.
      apply list_elem_of_filter in Hch as [Hrow _]. exact Hrow. }
    split; [| split; [| split]].
    + exists cs. split; [assumption | reflexivity].
    + exact Hbound.
    + intros n t' out' Hprints. apply prints_frame in Hprints as [Hc Ha].
      split; [exact Hc |]. unfold rows_within_top. rewrite Hc, Ha. exact Hbound.
    + intros tick e e' out' Htick He Hrun.
      apply run_frame_spec in Hrun as (_ & Hc & Ha).
      unfold rows_within_top. rewrite Hc, Ha, He.
      apply animate_chars_Forall; [| exact Hbound].
      intros ch Hch. rewrite Htick. exact Hch.
Qed.

Lemma retained_rows_within_top_witness :
  exists t out,
    Terminal_init 3 [A; LF; B] (80, 2) = Ok (t, out)
    /\ characters t = [new_EffectCharacter B 1 1]
    /\ (exists cs,
           _decompose_input 3 80 [A; LF; B] = Ok cs
           /\ characters t
              = filter (fun c => row (input_coord c) <= top (output_area t)) cs)
    /\ rows_within_top t.
Proof.
  eexists _, _. split; [reflexivity |]. split; [reflexivity |].
  pose proof (proj2 (retained_rows_within_top [A; LF; B] 80 2 3) _ _ eq_refl)
    as (Hcs & Hbound & _).
  split; [exact Hcs | exact Hbound].
Defined.

(** ** Rendering *)

Lemma index_lt (n i : Z) (p : nat) : Py.index n i = Ok p -> Z.of_nat p < n.
Proof.
  unfold Py.index. repeat case_bool_decide; intros [= <-]; lia.
Qed.

Lemma grid_blank (area : OutputArea) :
  grid (Z.to_nat (top area)) (Z.to_nat (right area)) (blank_rows area).
Proof.
  unfold grid, blank_rows. split; [apply length_replicate |].
  apply Forall_replicate, length_replicate.
Qed.

Lemma cell_blank (area : OutputArea) (i j : nat) :
  (i < Z.to_nat (top area))%nat -> (j < Z.to_nat (right area))%nat ->
  cell (blank_rows area) i j = Some SPACE.
Proof.
  intros Hi Hj. unfold cell, blank_rows.
  rewrite lookup_replicate_2 by assumption. simpl.
  apply lookup_replicate_2. assumption.
Qed.

(** One character: the grid keeps its shape, the cell the character lands on
    takes its symbol and the other cells keep theirs. *)
Lemma stamp_spec (n m : nat) (rows rows' : list str) (ch : EffectCharacter) :
  grid n m rows -> stamp rows ch = Ok rows' ->
  grid n m rows'
  /\ forall i j,
       cell rows' i j =
       if decide (landing n m ch = Some (i, j)) then Some (symbol ch)
       else cell rows i j.
Proof.
  intros [Hn Hm] Hrun. unfold stamp, landing in *.
  destruct (is_active ch).
  2:{ injection Hrun as <-. split; [split; assumption |].
      intros i j. rewrite decide_False by discriminate. reflexivity. }
  apply bind_Ok in Hrun as (r & Hr & Hrun).
  destruct (rows !! r) as [cells |] eqn:Hcells; [| discriminate].
  apply bind_Ok in Hrun as (cells' & Hset & [= <-]).
  unfold Py.setitem in Hset. apply bind_Ok in Hset as (c & Hc & [= <-]).
  assert (Hlen : length cells = m).
  { rewrite Forall_forall in Hm. apply Hm. eapply list_elem_of_lookup_2. eassumption. }
  unfold len in Hr, Hc. rewrite Hn in Hr. rewrite Hlen in Hc. rewrite Hr, Hc.
  pose proof (index_lt _ _ _ Hr) as Hrlt. pose proof (index_lt _ _ _ Hc) as Hclt.
  split.
  - split; [rewrite length_insert; assumption |].
    apply Forall_insert; [assumption |]. rewrite length_insert. assumption.
  - intros i j. unfold cell. destruct (decide (r = i)) as [<- | Hne].
    + rewrite list_lookup_insert_eq by lia. simpl.
      destruct (decide (c = j)) as [<- | Hne].
      * rewrite decide_True by reflexivity. apply list_lookup_insert_eq. lia.
      * rewrite decide_False by congruence.
        rewrite list_lookup_insert_ne by assumption. rewrite Hcells. reflexivity.
    + rewrite decide_False by congruence.
      rewrite list_lookup_insert_ne by assumption. reflexivity.
Qed.

Lemma last_stamp_cons (n m : nat) (ch : EffectCharacter) (cs : list EffectCharacter) (i j : nat) :
  last_stamp n m (ch :: cs) i j =
  match last_stamp n m cs i j with
  | Some ch' => Some ch'
  | None => if decide (landing n m ch = Some (i, j)) then Some ch else None
  end.
Proof.
  unfold last_stamp. rewrite filter_cons.
  destruct (decide (landing n m ch = Some (i, j))).
  - apply last_cons.
  - destruct (last _); reflexivity.
Qed.

(** All characters: a cell shows the last character written to it, and what
    it had before when there is none. *)
Lemma stamp_all_spec (n m : nat) (cs : list EffectCharacter) :
  forall rows rows',
    grid n m rows -> stamp_all rows cs = Ok rows' ->
    grid n m rows'
    /\ forall i j,
         cell rows' i j =
         match last_stamp n m cs i j with
         | Some ch => Some (symbol ch)
         | None => cell rows i j
         end.
Proof.
  induction cs as [| ch cs IH]; intros rows rows' Hgrid Hrun; simpl in Hrun.
  - injection Hrun as <-. split; [assumption | reflexivity].
  - apply bind_Ok in Hrun as (rows1 & Hone & Hrest).
    destruct (stamp_spec n m rows rows1 ch Hgrid Hone) as [Hgrid1 Hcell1].
    destruct (IH rows1 rows' Hgrid1 Hrest) as [Hgrid' Hcell'].
    split; [assumption |]. intros i j.
    rewrite Hcell', Hcell1, (last_stamp_cons n m ch cs i j).
    destruct (last_stamp n m cs i j); [reflexivity |].
    destruct (decide _); reflexivity.
Qed.

(** A character inside the output area lands on its own cell. *)
Lemma landing_inside (n m : nat) (ch : EffectCharacter) (i j : nat) :
  is_active ch = true ->
  (i < n)%nat -> (j < m)%nat ->
  row (current_coord ch) = Z.of_nat i + 1 ->
  column (current_coord ch) = Z.of_nat j + 1 ->
  landing n m ch = Some (i, j).
Proof.
  intros Hact Hi Hj Hrow Hcol. unfold landing, Py.index. rewrite Hact, Hrow, Hcol.
  rewrite !bool_decide_true by lia. do 2 f_equal; lia.
Qed.

(** A drawn character is never skipped: [stamp] either raises [IndexError]
    or writes the symbol of the character to a cell of the buffer.  Nothing
    in it looks at the output area, so that a character outside the area is
    treated like any other. *)
Lemma stamp_active (n m : nat) (rows : list str) (ch : EffectCharacter) :
  grid n m rows -> is_active ch = true ->
  (landing n m ch = None /\ stamp rows ch = Raise IndexError)
  \/ exists rows' i j,
       landing n m ch = Some (i, j) /\ stamp rows ch = Ok rows'
       /\ (i < n)%nat /\ (j < m)%nat /\ cell rows' i j = Some (symbol ch).
Proof.
  intros Hgrid Hact. pose proof Hgrid as [Hn Hm].
  destruct (stamp rows ch) as [rows' | e |] eqn:Hrun.
  - right. destruct (stamp_spec n m rows rows' ch Hgrid Hrun) as [_ Hcell].
    unfold stamp, landing in *. rewrite Hact in *.
    apply bind_Ok in Hrun as (r & Hr & Hrun).
    destruct (rows !! r) as [cells |] eqn:Hcells; [| discriminate].
    apply bind_Ok in Hrun as (cells' & Hset & _).
    unfold Py.setitem in Hset. apply bind_Ok in Hset as (c & Hc & _).
    assert (Hlen : length cells = m).
    { rewrite Forall_forall in Hm. apply Hm. eapply list_elem_of_lookup_2. eassumption. }
    unfold len in Hr, Hc. rewrite Hn in Hr. rewrite Hlen in Hc.
    pose proof (index_lt _ _ _ Hr). pose proof (index_lt _ _ _ Hc).
    exists rows', r, c. specialize (Hcell r c). rewrite Hr, Hc in *.
    rewrite decide_True in Hcell by reflexivity.
    repeat split; [lia | lia | exact Hcell].
  - left. unfold stamp, landing in *. rewrite Hact in *.
    unfold len in Hrun. rewrite Hn in Hrun.
    destruct (Py.index (Z.of_nat n) (row (current_coord ch) - 1)) as [r | e' |] eqn:Hr;
      simpl in Hrun.
    + pose proof (index_lt _ _ _ Hr) as Hlt.
      destruct (rows !! r) as [cells |] eqn:Hcells.
      * assert (Hlen : length cells = m).
        { rewrite Forall_forall in Hm. apply Hm. eapply list_elem_of_lookup_2. eassumption. }
        unfold Py.setitem, len in Hrun. rewrite Hlen in Hrun.
        destruct (Py.index (Z.of_nat m) (column (current_coord ch) - 1)) as [c | e'' |] eqn:Hc;
          simpl in Hrun; [discriminate | | discriminate].
        unfold Py.index in Hc. repeat case_bool_decide; try discriminate.
        injection Hc as <-. split; [reflexivity | congruence].
      * apply lookup_ge_None in Hcells. lia.
    + unfold Py.index in Hr. repeat case_bool_decide; try discriminate.
      injection Hr as <-. split; [reflexivity | congruence].
    + discriminate.
  - exfalso. unfold stamp in Hrun. rewrite Hact in Hrun.
    unfold Py.setitem, Py.index in Hrun.
    repeat (case_bool_decide; simpl in Hrun); try discriminate;
      destruct (rows !! _); simpl in Hrun; try discriminate;
      repeat (case_bool_decide; simpl in Hrun); discriminate.
Qed.

(** Characters that are inside the output area when they are drawn never
    make the render fail. *)
Lemma render_inside_returns (area : OutputArea) (cs : list EffectCharacter) :
  1 <= bottom area -> 1 <= left area ->
  Forall (fun ch => is_active ch = true -> inside area (current_coord ch)) cs ->
  exists rows, _update_terminal_state area cs = Ok rows.
Proof.
  unfold _update_terminal_state. intros Hbottom Hleft Hall.
  pose proof (grid_blank area) as Hgrid. revert Hgrid. generalize (blank_rows area).
  induction Hall as [| ch cs Hch _ IH]; intros rows Hgrid; [eexists; reflexivity |].
  simpl. destruct (is_active ch) eqn:Hact.
  - destruct (stamp_active _ _ rows ch Hgrid Hact)
      as [[Hnone _] | (rows' & i & j & _ & Hrun & _)].
    + exfalso. destruct (Hch eq_refl) as [Hrow Hcol].
      rewrite (landing_inside _ _ ch (Z.to_nat (row (current_coord ch) - 1))
                 (Z.to_nat (column (current_coord ch) - 1))) in Hnone;
        [discriminate | assumption | lia | lia | lia | lia].
    + rewrite Hrun. simpl. apply IH.
      apply (stamp_spec _ _ rows rows' ch Hgrid Hrun).
  - unfold stamp. rewrite Hact. simpl. apply IH. assumption.
Qed.

Lemma last_filter_split {X} (P : X -> Prop) `{!forall x, Decision (P x)}
    (before after : list X) (x : X) :
  P x -> Forall (fun y => ~ P y) after ->
  last (filter P (before ++ x :: after)) = Some x.
Proof.
  intros Hx Hafter.
  rewrite filter_app, filter_cons_True by assumption.
  rewrite (filter_none P after Hafter). apply last_snoc.
Qed.

(** C1, as stated, fails: of two visible characters on the cell (1, 1), the
    first of layer 1 and the second of layer 0, the buffer shows the second,
    where the rule of the highest layer asks for the first. *)
Lemma render_ignores_layer_counterexample :
  let hi := mkEffectCharacter A (mkCoord 1 1) (mkCoord 1 1) true 1 in
  let lo := mkEffectCharacter B (mkCoord 1 1) (mkCoord 1 1) true 0 in
  exists rows,
    _update_terminal_state (new_OutputArea 1 1) [hi; lo] = Ok rows
    /\ cell rows 0 0 = Some (symbol lo)
    /\ spec_topmost [hi; lo] = Some hi
    /\ symbol hi <> symbol lo.
Proof.
  simpl. eexists. split; [reflexivity |]. repeat split. discriminate.
Qed.

(** C1, amended.  For every render that returns, the symbol displayed at a
    cell of the output area is that of the most recently stamped Character,
    the last one in the list of characters that is active and is written to
    that cell, whatever the layers; it is a space when there is none.  Active
    Characters whose current coordinate is that cell are written to it; so a
    Character followed in the list by no other that is written to the cell is
    the one displayed. *)
Theorem render_last_stamp_wins
    (area : OutputArea) (cs : list EffectCharacter) (rows : list str) (i j : nat) :
  _update_terminal_state area cs = Ok rows ->
  (i < Z.to_nat (top area))%nat -> (j < Z.to_nat (right area))%nat ->
  cell rows i j
  = Some (from_option symbol SPACE
            (last_stamp (Z.to_nat (top area)) (Z.to_nat (right area)) cs i j))
  /\ (forall ch,
         is_active ch = true ->
         row (current_coord ch) = Z.of_nat i + 1 ->
         column (current_coord ch) = Z.of_nat j + 1 ->
         landing (Z.to_nat (top area)) (Z.to_nat (right area)) ch = Some (i, j))
  /\ (forall before ch after,
         cs = before ++ ch :: after ->
         landing (Z.to_nat (top area)) (Z.to_nat (right area)) ch = Some (i, j) ->
         Forall (fun ch' =>
                   landing (Z.to_nat (top area)) (Z.to_nat (right area)) ch' <> Some (i, j))
                after ->
         cell rows i j = Some (symbol ch)).
Proof.
  set (n := Z.to_nat (top area)). set (m := Z.to_nat (right area)).
  intros Hrun Hi Hj. unfold _update_terminal_state in Hrun.
  destruct (stamp_all_spec n m cs _ _ (grid_blank area) Hrun) as [_ Hcell].
  assert (Hshown : cell rows i j = Some (from_option symbol SPACE (last_stamp n m cs i j))).
  { rewrite Hcell. destruct (last_stamp n m cs i j); [reflexivity |].
    apply cell_blank; assumption. }
  split; [exact Hshown | split].
  - intros ch Hact Hrow Hcol. apply landing_inside; assumption.
  - intros before ch after -> Hland Hafter. rewrite Hshown. unfold last_stamp.
    rewrite (last_filter_split _ before after ch Hland Hafter). reflexivity.
Qed.

Lemma render_last_stamp_wins_witness :
  let hi := mkEffectCharacter A (mkCoord 1 1) (mkCoord 1 1) true 1 in
  let lo := mkEffectCharacter B (mkCoord 1 1) (mkCoord 1 1) true 0 in
  cell [[B; SPACE]] 0 0 = Some (from_option symbol SPACE (last_stamp 1 2 [hi; lo] 0 0))
  /\ (forall ch,
         is_active ch = true ->
         row (current_coord ch) = Z.of_nat 0 + 1 ->
         column (current_coord ch) = Z.of_nat 0 + 1 ->
         landing 1 2 ch = Some (0%nat, 0%nat))
  /\ (forall before ch after,
         [hi; lo] = before ++ ch :: after ->
         landing 1 2 ch = Some (0%nat, 0%nat) ->
         Forall (fun ch' => landing 1 2 ch' <> Some (0%nat, 0%nat)) after ->
         cell [[B; SPACE]] 0 0 = Some (symbol ch)).
Proof.
  intros hi lo.
  apply (render_last_stamp_wins (new_OutputArea 1 2) [hi; lo] [[B; SPACE]] 0 0).
  - reflexivity.
  - simpl. lia.
  - simpl. lia.
Defined.

(** C4 at its failing inputs, in an output area of one row and two columns.
    A drawn character at (0, 0) is written to the last cell of the last row,
    inside the area, and a drawn character one row above the area makes the
    render raise [IndexError]. *)
Theorem render_outside_area_failing_input :
  _update_terminal_state (new_OutputArea 1 2)
    [mkEffectCharacter A (mkCoord 1 1) (mkCoord 1 1) true 0;
     mkEffectCharacter Zed (mkCoord 2 1) (mkCoord 0 0) true 0]
  = Ok [[A; Zed]]
  /\ _update_terminal_state (new_OutputArea 1 2)
       [mkEffectCharacter A (mkCoord 1 1) (mkCoord 1 1) true 0]
     = Ok [[A; SPACE]]
  /\ _update_terminal_state (new_OutputArea 1 2)
       [mkEffectCharacter A (mkCoord 1 1) (mkCoord 1 1) true 0;
        mkEffectCharacter Zed (mkCoord 2 1) (mkCoord 1 2) true 0]
     = Raise IndexError.
Proof. repeat split. Qed.

(** ** The frame loops *)






(** * Further properties of the code *)

(** ** The buffer that a render returns *)

(** X1. Whenever [_update_terminal_state] returns, the buffer has [top]
    rows of [right] cells each (none when the number is not positive),
    whatever the characters and wherever they are. *)
Theorem render_shape (area : OutputArea) (cs : list EffectCharacter) (rows : list str) :
  _update_terminal_state area cs = Ok rows ->
  len rows = Z.max 0 (top area)
  /\ Forall (fun r => len r = Z.max 0 (right area)) rows.
Proof.
  intros Hrun. unfold _update_terminal_state in Hrun.
  destruct (stamp_all_spec _ _ cs _ _ (grid_blank area) Hrun) as [[Hn Hm] _].
  split.
  - unfold len. rewrite Hn. lia.
  - eapply Forall_impl; [exact Hm |]. simpl. intros r Hr. unfold len. rewrite Hr. lia.
Qed.

Lemma render_shape_witness :
  len [[A; SPACE]] = Z.max 0 1 /\ Forall (fun r => len r = Z.max 0 2) [[A; SPACE]].
Proof.
  apply (render_shape (new_OutputArea 1 2)
           [mkEffectCharacter A (mkCoord 1 1) (mkCoord 1 1) true 0]).
  reflexivity.
Defined.

(** X2. A render never looks at a character that is not active: the result,
    buffer or error, is that of the render of the active characters alone. *)
Theorem render_skips_inactive (area : OutputArea) (cs : list EffectCharacter) :
  _update_terminal_state area cs
  = _update_terminal_state area (filter (fun ch => is_active ch = true) cs).
Proof.
  unfold _update_terminal_state.
  generalize (blank_rows area).
  induction cs as [| ch cs IH]; intros rows; [reflexivity |].
  rewrite filter_cons. destruct (is_active ch) eqn:Hact.
  - rewrite decide_True by reflexivity. simpl.
    destruct (stamp rows ch); simpl; [apply IH | reflexivity | reflexivity].
  - rewrite decide_False by discriminate. simpl.
    unfold stamp. rewrite Hact. simpl. apply IH.
Qed.

Lemma landing_indexable (area : OutputArea) (ch : EffectCharacter) :
  is_active ch = true ->
  landing (Z.to_nat (top area)) (Z.to_nat (right area)) ch <> None
  <-> indexable area (current_coord ch).
Proof.
  intros Hact. unfold landing, indexable, Py.index. rewrite Hact.
  assert (Ht : Z.of_nat (Z.to_nat (top area)) = Z.max 0 (top area)) by lia.
  assert (Hr : Z.of_nat (Z.to_nat (right area)) = Z.max 0 (right area)) by lia.
  rewrite Ht, Hr.
  repeat case_bool_decide; split; intros Hgoal; try congruence; try lia.
Qed.

(** The two ways a pass over the characters can end. *)
Lemma stamp_all_result (n m : nat) (cs : list EffectCharacter) :
  forall rows, grid n m rows ->
    (Forall (fun ch => is_active ch = true -> landing n m ch <> None) cs
     /\ exists rows', stamp_all rows cs = Ok rows')
    \/ (Exists (fun ch => is_active ch = true /\ landing n m ch = None) cs
        /\ stamp_all rows cs = Raise IndexError).
Proof.
  induction cs as [| ch cs IH]; intros rows Hgrid.
  - left. split; [constructor | eexists; reflexivity].
  - simpl. destruct (is_active ch) eqn:Hact.
    + destruct (stamp_active n m rows ch Hgrid Hact)
        as [[Hnone Hrun] | (rows' & i & j & Hland & Hrun & _)].
      * right. rewrite Hrun. split; [left; auto | reflexivity].
      * rewrite Hrun. simpl.
        destruct (IH rows' (proj1 (stamp_spec n m rows rows' ch Hgrid Hrun)))
          as [[Hall Hok] | [Hex Hfail]].
        -- left. split; [| exact Hok]. constructor; [| exact Hall].
           intros _. rewrite Hland. discriminate.
        -- right. split; [right; exact Hex | exact Hfail].
    + unfold stamp. rewrite Hact. simpl.
      destruct (IH rows Hgrid) as [[Hall Hok] | [Hex Hfail]].
      * left. split; [| exact Hok]. constructor; [| exact Hall]. congruence.
      * right. split; [right; exact Hex | exact Hfail].
Qed.

(** X3. A render returns exactly when every active character stands on a
    coordinate that the two list indices accept, rows [1 - top .. top] and
    columns [1 - right .. right]; in every other case it raises
    [IndexError], and nothing else. *)
Theorem render_returns_iff (area : OutputArea) (cs : list EffectCharacter) :
  ((exists rows, _update_terminal_state area cs = Ok rows)
   <-> Forall (fun ch => is_active ch = true -> indexable area (current_coord ch)) cs)
  /\ ((exists rows, _update_terminal_state area cs = Ok rows)
      \/ _update_terminal_state area cs = Raise IndexError).
Proof.
  unfold _update_terminal_state.
  destruct (stamp_all_result _ _ cs _ (grid_blank area)) as [[Hall Hok] | [Hex Hfail]].
  - split; [| left; exact Hok]. split; [intros _ | intros _; exact Hok].
    eapply Forall_impl; [exact Hall |]. simpl. intros ch Hch Hact.
    apply landing_indexable; auto.
  - split; [| right; exact Hfail]. split.
    + intros [rows Hok]. rewrite Hfail in Hok. discriminate.
    + intros Hall. exfalso. apply Exists_exists in Hex as (ch & Hin & Hact & Hnone).
      rewrite Forall_forall in Hall.
      apply (landing_indexable area ch Hact); [apply Hall; assumption | exact Hnone].
Qed.

Lemma index_counted_from_end (n x : Z) :
  Py.index (Z.max 0 n) (x - 1)
  = Py.index (Z.max 0 n)
      ((if bool_decide (- Z.max 0 n < x <= 0) then x + n else x) - 1).
Proof.
  unfold Py.index. repeat case_bool_decide; try lia; try reflexivity; f_equal; lia.
Qed.

Lemma stamp_counted_from_end (area : OutputArea) (rows : list str) (ch : EffectCharacter) :
  grid (Z.to_nat (top area)) (Z.to_nat (right area)) rows ->
  stamp rows (standing_at (counted_from_end area (current_coord ch)) ch) = stamp rows ch.
Proof.
  intros [Hn Hm]. unfold stamp. cbn [standing_at is_active current_coord symbol].
  destruct (is_active ch); [| reflexivity].
  cbn [counted_from_end row column].
  assert (Hrows : len rows = Z.max 0 (top area)) by (unfold len; lia).
  rewrite Hrows, <- index_counted_from_end.
  destruct (Py.index (Z.max 0 (top area)) (row (current_coord ch) - 1)) as [r | |];
    [| reflexivity | reflexivity].
  cbn [bind]. destruct (rows !! r) as [cells |] eqn:Hcells; [| reflexivity].
  unfold Py.setitem.
  assert (Hcols : len cells = Z.max 0 (right area)).
  { rewrite Forall_forall in Hm. unfold len.
    rewrite (Hm cells) by (eapply list_elem_of_lookup_2; exact Hcells). lia. }
  rewrite Hcols, <- index_counted_from_end. reflexivity.
Qed.

(** X4. A character that stands on a row from [1 - top] to 0 is drawn [top]
    rows higher, and one on a column from [1 - right] to 0 is drawn [right]
    columns further right, in the output area: the render of characters is
    the render of these characters at the places they are drawn at, buffer
    or error. *)
Theorem render_counts_from_end (area : OutputArea) (cs : list EffectCharacter) :
  _update_terminal_state area cs
  = _update_terminal_state area
      ((fun ch => standing_at (counted_from_end area (current_coord ch)) ch) <$> cs).
Proof.
  unfold _update_terminal_state.
  pose proof (grid_blank area) as Hgrid. revert Hgrid.
  generalize (blank_rows area).
  induction cs as [| ch cs IH]; intros rows Hgrid; [reflexivity |].
  cbn [fmap list_fmap stamp_all].
  rewrite (stamp_counted_from_end area rows ch Hgrid).
  destruct (stamp rows ch) as [rows' | |] eqn:Hstamp; [| reflexivity | reflexivity].
  cbn [bind]. apply IH. eapply stamp_spec; eassumption.
Qed.

(** ** What [print] writes *)

Lemma print_rows_texts (k : Z) (rows : list str) : texts (print_rows k rows) = rows.
Proof.
  revert k. induction rows as [| r rows IH]; intros k; [reflexivity |].
  simpl. unfold texts in IH. rewrite IH. reflexivity.
Qed.

Lemma print_rows_ups (k : Z) (rows : list str) :
  cursor_ups (print_rows k rows)
  = (fun i => k + Z.of_nat i + 1) <$> seq 0 (length rows).
Proof.
  revert k. induction rows as [| r rows IH]; intros k; [reflexivity |].
  simpl. unfold cursor_ups in IH. rewrite IH. f_equal; [lia |].
  rewrite <- fmap_S_seq, <- list_fmap_compose.
  apply list_fmap_ext. intros _ i _. simpl. lia.
Qed.

Lemma print_rows_length (k : Z) (rows : list str) :
  length (print_rows k rows) = (6 * length rows)%nat.
Proof.
  revert k. induction rows as [| r rows IH]; intros k; [reflexivity |].
  simpl. rewrite IH. lia.
Qed.

Lemma print_rows_at (rows : list str) :
  forall (k : Z) (i : nat) (r : str),
    rows !! i = Some r ->
    take 6 (drop (6 * i) (print_rows k rows))
    = [DEC_SAVE_CURSOR_POSITION; MOVE_CURSOR_UP (k + Z.of_nat i + 1);
       MOVE_CURSOR_TO_COLUMN 1; Text r; DEC_RESTORE_CURSOR_POSITION; Flush].
Proof.
  induction rows as [| r0 rows IH]; intros k i r Hr; [discriminate |].
  destruct i as [| i].
  - injection Hr as ->. cbn [print_rows app Nat.mul Nat.add drop take].
    do 2 f_equal. f_equal. lia.
  - cbn [lookup list_lookup] in Hr.
    replace (6 * S i)%nat with (6 + 6 * i)%nat by lia.
    cbn [print_rows app Nat.add drop].
    rewrite (IH (k + 1) i r Hr). do 2 f_equal. f_equal. lia.
Qed.

(** X5. When [print] returns, the new [terminal_state] is the buffer that
    the render of the characters returns, and [print] has written that buffer
    and nothing else: for every row of the buffer, in order, the same six
    writes, which save the cursor position, move the cursor up by the index
    of the row plus one, move it to column 1, write the row, restore the
    cursor position and flush, and no write besides these. *)
Theorem print_writes (t t' : Terminal) (out : list write) :
  print t = Ok (t', out) ->
  _update_terminal_state (output_area t) (characters t) = Ok (terminal_state t')
  /\ length out = (6 * length (terminal_state t'))%nat
  /\ (forall (i : nat) (r : str),
        terminal_state t' !! i = Some r ->
        take 6 (drop (6 * i) out)
        = [DEC_SAVE_CURSOR_POSITION; MOVE_CURSOR_UP (Z.of_nat i + 1);
           MOVE_CURSOR_TO_COLUMN 1; Text r; DEC_RESTORE_CURSOR_POSITION; Flush])
  /\ texts out = terminal_state t'
  /\ cursor_ups out = (fun i => Z.of_nat i + 1) <$> seq 0 (length (terminal_state t')).
Proof.
  unfold print. intros Hrun. apply bind_Ok in Hrun as (st & Hst & [= <- <-]).
  cbn [terminal_state with_terminal_state].
  split; [exact Hst |].
  split; [apply print_rows_length |].
  split; [intros i r Hr; apply (print_rows_at st 0 i r Hr) |].
  split; [apply print_rows_texts | apply print_rows_ups].
Qed.

Lemma print_writes_witness :
  let t := mkTerminal [A; B] 80 24
             [mkEffectCharacter A (mkCoord 1 1) (mkCoord 1 1) true 0;
              mkEffectCharacter B (mkCoord 2 1) (mkCoord 2 1) false 0]
             2 1 (new_OutputArea 1 2) [] in
  exists t' out,
    print t = Ok (t', out)
    /\ terminal_state t' = [[A; SPACE]]
    /\ length out = (6 * length (terminal_state t'))%nat
    /\ (forall (i : nat) (r : str),
          terminal_state t' !! i = Some r ->
          take 6 (drop (6 * i) out)
          = [DEC_SAVE_CURSOR_POSITION; MOVE_CURSOR_UP (Z.of_nat i + 1);
             MOVE_CURSOR_TO_COLUMN 1; Text r; DEC_RESTORE_CURSOR_POSITION; Flush])
    /\ texts out = terminal_state t'.
Proof.
  intros t. eexists _, _. split; [reflexivity |]. split; [reflexivity |].
  pose proof (print_writes t _ _ eq_refl) as (_ & Hlength & Hat & Htexts & _).
  split; [exact Hlength | split; [exact Hat | exact Htexts]].
Defined.

(** X6. A [print] that returns can be repeated: as long as no character
    changes, every further [print] returns the same terminal and writes the
    same. *)
Theorem print_repeatable (t t1 : Terminal) (out : list write) :
  print t = Ok (t1, out) ->
  print t1 = Ok (t1, out)
  /\ forall n, prints n t1 = Ok (t1, concat (replicate n out)).
Proof.
  intros Hrun.
  assert (Hagain : print t1 = Ok (t1, out)).
  { unfold print in *. apply bind_Ok in Hrun as (st & Hst & [= <- <-]).
    cbn [output_area characters with_terminal_state]. rewrite Hst. reflexivity. }
  split; [exact Hagain |].
  induction n as [| n IH]; [reflexivity |].
  cbn [prints replicate concat]. rewrite Hagain. simpl. rewrite IH. reflexivity.
Qed.

Lemma print_repeatable_witness :
  let t := mkTerminal [A] 80 24
             [mkEffectCharacter A (mkCoord 1 1) (mkCoord 1 1) true 0]
             1 1 (new_OutputArea 1 1) [] in
  exists t1 out,
    print t = Ok (t1, out)
    /\ print t1 = Ok (t1, out)
    /\ forall n, prints n t1 = Ok (t1, concat (replicate n out)).
Proof.
  intros t. eexists _, _. split; [reflexivity |].
  apply (print_repeatable t). reflexivity.
Defined.

(** ** More on wrapping *)

Lemma ceil_div_full (k l w : Z) :
  1 <= w -> 1 <= l <= w -> ceil_div (k * w + l) w = k + 1.
Proof.
  intros Hw Hl. unfold ceil_div. symmetry.
  apply (Z.div_unique _ _ _ (l - 1)); lia.
Qed.

Lemma concat_full_length (w : Z) (chunks : list str) :
  Forall (fun ch => len ch = w) chunks -> len (concat chunks) = len chunks * w.
Proof.
  unfold len. induction 1 as [| ch chunks Hch _ IH]; [reflexivity |].
  simpl. rewrite length_app. unfold len in Hch. lia.
Qed.

(** What the loop makes of one line, with the rest appended as the body of
    the [for] loop does. *)
Lemma wrap_loop_full (w : Z) (fuel : nat) (line : str) (acc : list str) :
  1 <= w -> (length line <= fuel)%nat ->
  exists chunks last,
    wrap_loop fuel w line acc = Ok (last, acc ++ chunks)
    /\ wrapped_as w line (match last with [] => chunks | _ => chunks ++ [last] end).
Proof.
  intros Hw Hfuel.
  destruct (wrap_loop_enough w fuel Hw line acc Hfuel)
    as (chunks & last & Hrun & Hcat & Hfull & Hlast & Hne).
  exists chunks, last. split; [exact Hrun |].
  pose proof (concat_full_length w chunks Hfull) as Hlen.
  destruct last as [| s last].
  - rewrite app_nil_r in Hcat.
    assert (Hline : line = []) by (destruct line; [reflexivity | exfalso; apply Hne; congruence]).
    rewrite Hline in *. clear Hline. destruct chunks as [| ch chunks].
    + repeat split; try constructor. unfold ceil_div, len. simpl.
      symmetry. apply Z.div_small. lia.
    + exfalso. apply Forall_cons in Hfull as [Hch _]. simpl in Hcat.
      apply app_eq_nil in Hcat as [Hnil _]. rewrite Hnil in Hch.
      unfold len in Hch. simpl in Hch. lia.
  - repeat split.
    + rewrite concat_app. simpl. rewrite app_nil_r. exact Hcat.
    + rewrite <- Hcat. unfold len in *. rewrite !length_app. simpl length.
      replace (Z.of_nat (length (concat chunks) + S (length last)))
        with (Z.of_nat (length chunks) * w + Z.of_nat (S (length last))) by lia.
      rewrite ceil_div_full by (simpl in Hlast; lia). lia.
    + rewrite length_app. simpl.
      replace (length chunks + 1 - 1)%nat with (length chunks) by lia.
      rewrite take_app_length. exact Hfull.
    + apply Forall_app. split.
      * eapply Forall_impl; [exact Hfull |]. simpl. intros ch Hch. lia.
      * constructor; [| constructor]. unfold len in *. simpl in *. lia.
Qed.

Lemma wrap_lines_full (w : Z) (fuel : nat) :
  1 <= w ->
  forall (input_lines : list str) (acc : list str),
    Forall (fun line => (length line <= fuel)%nat) input_lines ->
    exists chunkss,
      wrap_lines fuel w input_lines acc = Ok (acc ++ concat chunkss)
      /\ Forall2 (wrapped_as w) input_lines chunkss.
Proof.
  intros Hw input_lines. induction input_lines as [| line rest IH]; intros acc Hfuel.
  - exists []. simpl. rewrite app_nil_r. split; [reflexivity | constructor].
  - apply Forall_cons in Hfuel as [Hline Hrest].
    destruct (wrap_loop_full w fuel line acc Hw Hline) as (chunks & last & Hrun & Hwrapped).
    cbn [wrap_lines]. rewrite Hrun. cbn [bind].
    destruct last as [| s last].
    + destruct (IH (acc ++ chunks) Hrest) as (chunkss & Hrec & Hall).
      exists (chunks :: chunkss). rewrite Hrec. simpl. rewrite app_assoc.
      split; [reflexivity | constructor; assumption].
    + destruct (IH ((acc ++ chunks) ++ [s :: last]) Hrest) as (chunkss & Hrec & Hall).
      exists ((chunks ++ [s :: last]) :: chunkss). rewrite Hrec. simpl.
      rewrite !app_assoc.
      split; [reflexivity | constructor; assumption].
Qed.

(** X7. At a width [w >= 1] every input line is wrapped to the full: a line
    of [n] symbols gives [ceil(n / w)] wrapped lines (an empty line gives
    none), all of them [w] symbols long but the last, which is not empty; so
    the number of wrapped lines, the height of the input, is the sum of
    these numbers. *)
Theorem wrap_lines_counts (input : str) (w : Z) (fuel : nat) :
  1 <= w -> (length input <= fuel)%nat ->
  exists chunkss : list (list str),
    wrap_lines fuel w (Py.splitlines input) [] = Ok (concat chunkss)
    /\ Forall2 (wrapped_as w) (Py.splitlines input) chunkss
    /\ len (concat chunkss)
       = foldr (fun line n => ceil_div (len line) w + n) 0 (Py.splitlines input).
Proof.
  intros Hw Hfuel.
  destruct (wrap_lines_full w fuel Hw (Py.splitlines input) []) as (chunkss & Hrun & Hall).
  { eapply Forall_impl; [apply splitlines_from_length |]. simpl. intros l Hl. lia. }
  exists chunkss. split; [exact Hrun | split; [exact Hall |]].
  clear Hrun. induction Hall as [| line chunks lines chunkss (_ & Hcount & _) _ IH].
  - reflexivity.
  - simpl. unfold len in *. rewrite length_app. lia.
Qed.

Lemma wrap_lines_counts_witness :
  exists chunkss : list (list str),
    wrap_lines 7 3 (Py.splitlines (str_of_string "abcdefg")) [] = Ok (concat chunkss)
    /\ Forall2 (wrapped_as 3) (Py.splitlines (str_of_string "abcdefg")) chunkss
    /\ len (concat chunkss)
       = foldr (fun line n => ceil_div (len line) 3 + n) 0
           (Py.splitlines (str_of_string "abcdefg")).
Proof.
  apply (wrap_lines_counts (str_of_string "abcdefg") 3 7); [lia | simpl; lia].
Defined.

(** An empty line leaves no trace, at every width the loop returns at. *)
Lemma wrap_lines_drops_empty (fuel : nat) (w : Z) (input_lines : list str) :
  0 <= w ->
  forall acc,
    wrap_lines fuel w input_lines acc
    = wrap_lines fuel w (filter (fun line => line <> []) input_lines) acc.
Proof.
  intros Hw. induction input_lines as [| line rest IH]; intros acc; [reflexivity |].
  rewrite filter_cons. destruct line as [| s line].
  - rewrite decide_False by auto. cbn [wrap_lines].
    assert (Hloop : wrap_loop fuel w [] acc = Ok ([], acc)).
    { destruct fuel; simpl; rewrite bool_decide_false by (unfold len; simpl; lia);
        reflexivity. }
    rewrite Hloop. simpl. apply IH.
  - rewrite decide_True by discriminate. cbn [wrap_lines].
    destruct (wrap_loop fuel w (s :: line) acc) as [[last acc'] | e |]; simpl;
      [apply IH | reflexivity | reflexivity].
Qed.

(** X8. Empty lines of the input are dropped before rows are numbered: two
    inputs with the same non-empty lines decompose into the same Characters
    with the same input coordinates (and go wrong in the same way when they
    do). *)
Theorem decompose_input_drops_empty_lines (input input' : str) (w : Z) (fuel : nat) :
  0 <= w ->
  filter (fun line => line <> []) (Py.splitlines input)
  = filter (fun line => line <> []) (Py.splitlines input') ->
  _decompose_input fuel w input = _decompose_input fuel w input'.
Proof.
  intros Hw Hlines. unfold _decompose_input.
  rewrite (wrap_lines_drops_empty fuel w (Py.splitlines input) Hw).
  rewrite (wrap_lines_drops_empty fuel w (Py.splitlines input') Hw).
  rewrite Hlines. reflexivity.
Qed.

Lemma decompose_input_drops_empty_lines_witness :
  _decompose_input 5 80 [A; LF; LF; CR; LF; B] = _decompose_input 5 80 [A; LF; B]
  /\ _decompose_input 5 80 [A; LF; B]
     = Ok [new_EffectCharacter A 1 2; new_EffectCharacter B 1 1].
Proof.
  split; [| reflexivity].
  apply decompose_input_drops_empty_lines; [lia | reflexivity].
Defined.

(** ** The order of the characters *)

Lemma decompose_line_order (H r c : Z) (line : str) :
  StronglySorted (fun ch ch' => reads_before (input_coord ch) (input_coord ch'))
    (decompose_line H r c line).
Proof.
  revert c. induction line as [| s line IH]; intros c; [constructor |].
  cbn [decompose_line]. case_bool_decide; [| apply IH].
  simpl. constructor; [apply IH |].
  apply Forall_forall. intros ch Hch.
  apply decompose_line_spec in Hch as (i & s' & _ & _ & ->).
  right. simpl. lia.
Qed.

(** X9. The Characters come out in the order of reading: those of an upper
    line before those of a lower one, and in a line from left to right. *)
Theorem decompose_input_order (input : str) (w : Z) (fuel : nat) (cs : list EffectCharacter) :
  _decompose_input fuel w input = Ok cs ->
  StronglySorted (fun ch ch' => reads_before (input_coord ch) (input_coord ch')) cs.
Proof.
  unfold _decompose_input. intros Hrun.
  apply bind_Ok in Hrun as (wrapped & _ & [= <-]).
  generalize (len wrapped) as H. generalize 0 as r.
  induction wrapped as [| line lines IH]; intros r H; [constructor |].
  cbn [decompose_rows]. apply StronglySorted_app_2.
  - intros ch ch' Hch Hch'.
    apply decompose_line_spec in Hch as (i & s & _ & _ & ->).
    apply decompose_rows_spec in Hch' as (j & l & i' & s' & _ & _ & _ & ->).
    left. simpl. lia.
  - apply decompose_line_order.
  - apply IH.
Qed.

Lemma decompose_input_order_witness :
  StronglySorted (fun ch ch' => reads_before (input_coord ch) (input_coord ch'))
    [new_EffectCharacter A 1 2; new_EffectCharacter B 2 2; new_EffectCharacter A 1 1].
Proof.
  apply (decompose_input_order [A; B; A] 2 3). reflexivity.
Defined.

(** ** Construction, case by case *)

(** At a negative width the guard of the loop holds of every line. *)
Lemma wrap_loop_negative (w : Z) (fuel : nat) :
  w < 0 -> forall line acc, wrap_loop fuel w line acc = OutOfFuel.
Proof.
  intros Hw. induction fuel as [| fuel IH]; intros line acc; simpl;
    rewrite bool_decide_true by (unfold len; lia); [reflexivity | apply IH].
Qed.

Lemma wrap_lines_stuck (fuel : nat) (input_lines : list str) (acc : list str) :
  Exists (fun line => line <> []) input_lines ->
  wrap_lines fuel 0 input_lines acc = OutOfFuel.
Proof.
  intros Hex. revert acc. induction Hex as [line rest Hne | line rest _ IH]; intros acc.
  - cbn [wrap_lines].
    rewrite (wrap_loop_stuck 0 fuel line acc); [reflexivity | lia | exact Hne |].
    apply slice_from_zero.
  - cbn [wrap_lines]. destruct line as [| s line].
    + assert (Hloop : wrap_loop fuel 0 [] acc = Ok ([], acc))
        by (destruct fuel; reflexivity).
      rewrite Hloop. simpl. apply IH.
    + rewrite (wrap_loop_stuck 0 fuel (s :: line) acc); [reflexivity | lia | discriminate |].
      apply slice_from_zero.
Qed.

Lemma splitlines_from_nonempty (line s : str) :
  line <> [] \/ s <> [] -> Py.splitlines_from line s <> [].
Proof.
  revert line. induction s as [| c rest IH]; intros line Hne.
  - destruct Hne as [Hne | Hne]; [| congruence].
    destruct line; [congruence | discriminate].
  - cbn [Py.splitlines_from]. destruct (Py.is_linebreak c); [discriminate |].
    apply IH. left. destruct line; discriminate.
Qed.

(** X10. At a terminal width below 1 construction never yields a Terminal.
    It does not return at all when the width is negative and the input is
    not empty, or when the width is 0 and the input has a symbol that is not
    a line boundary; on the inputs that are left it raises [ValueError]. *)
Theorem init_below_width_one (input : str) (w h : Z) :
  w <= 0 ->
  ((w < 0 /\ input <> []) \/ (exists c, c ∈ input /\ Py.is_linebreak c = false) ->
   forall fuel, Terminal_init fuel input (w, h) = OutOfFuel)
  /\ (~ ((w < 0 /\ input <> []) \/ (exists c, c ∈ input /\ Py.is_linebreak c = false)) ->
      forall fuel, Terminal_init fuel input (w, h) = Raise ValueError).
Proof.
  intros Hw. split.
  - intros Hhang fuel. unfold Terminal_init, _decompose_input.
    destruct (Z_lt_le_dec w 0) as [Hneg | Hzero].
    + assert (Hne : input <> []).
      { destruct Hhang as [[_ Hne] | (c & Hin & _)]; [exact Hne |].
        intros ->. inversion Hin. }
      pose proof (splitlines_from_nonempty [] input (or_intror Hne)) as Hlines.
      fold (Py.splitlines input) in Hlines.
      destruct (Py.splitlines input) as [| line rest]; [congruence |].
      cbn [wrap_lines]. rewrite wrap_loop_negative by exact Hneg. reflexivity.
    + assert (w = 0) by lia. subst w.
      destruct Hhang as [[Hneg _] | (c & Hin & Hlb)]; [lia |].
      rewrite wrap_lines_stuck; [reflexivity |].
      assert (Hc : c ∈ concat (Py.splitlines input)) by (apply splitlines_symbols; auto).
      apply elem_of_concat in Hc as (l & Hcl & Hl).
      apply Exists_exists. exists l. split; [exact Hl |].
      intros ->. inversion Hcl.
  - intros Hnot fuel.
    destruct (decide (input = [])) as [-> | Hne]; [reflexivity |].
    assert (w = 0) by (destruct (Z_lt_le_dec w 0); [exfalso; apply Hnot; left; auto | lia]).
    subst w. unfold Terminal_init, _decompose_input.
    rewrite (wrap_lines_drops_empty fuel 0 (Py.splitlines input)) by lia.
    rewrite (filter_none (fun line : str => line <> [])); [reflexivity |].
    apply Forall_forall. intros l Hl Hlne. apply Hnot. right.
    destruct l as [| c l]; [congruence |]. exists c.
    apply splitlines_symbols. apply elem_of_concat. exists (c :: l). split; [left | exact Hl].
Qed.

Lemma init_below_width_one_witness :
  (forall fuel, Terminal_init fuel [A] (0, 24) = OutOfFuel)
  /\ (forall fuel, Terminal_init fuel [LF] (- 1, 24) = OutOfFuel)
  /\ (forall fuel, Terminal_init fuel [LF] (0, 24) = Raise ValueError).
Proof.
  split; [| split].
  - apply (proj1 (init_below_width_one [A] 0 24 ltac:(lia))).
    right. exists A. split; [left | reflexivity].
  - apply (proj1 (init_below_width_one [LF] (- 1) 24 ltac:(lia))).
    left. split; [lia | discriminate].
  - apply (proj2 (init_below_width_one [LF] 0 24 ltac:(lia))).
    intros [[Hneg _] | (c & Hin & Hlb)]; [lia |].
    apply list_elem_of_singleton in Hin. subst c. discriminate.
Defined.

(** X11. At a width of at least 1 construction returns exactly on the inputs
    that have a symbol that is neither a space nor a line boundary; on every
    other input, the inputs of spaces and line boundaries, it raises
    [ValueError]. *)
Theorem init_returns_iff (input : str) (w h : Z) (fuel : nat) :
  1 <= w -> (length input <= fuel)%nat ->
  ((exists t out, Terminal_init fuel input (w, h) = Ok (t, out))
   <-> exists c, c ∈ input /\ c <> SPACE /\ Py.is_linebreak c = false)
  /\ ((exists t out, Terminal_init fuel input (w, h) = Ok (t, out))
      \/ Terminal_init fuel input (w, h) = Raise ValueError).
Proof.
  intros Hw Hfuel.
  destruct (decide (Exists (fun c => c <> SPACE /\ Py.is_linebreak c = false) input))
    as [Hex | Hnone].
  - apply Exists_exists in Hex as (c & Hin & Hsp & Hlb).
    assert (Hglyph : exists c, c ∈ input /\ c <> SPACE /\ Py.is_linebreak c = false)
      by (exists c; auto).
    destruct (Terminal_init_returns fuel input w h Hw Hfuel Hglyph)
      as (cs & mw & mh & _ & _ & _ & Hinit).
    split; [split; [intros _; exact Hglyph | intros _] | left]; eexists _, _; exact Hinit.
  - assert (Hblank : Forall (fun c => c = SPACE \/ Py.is_linebreak c = true) input).
    { apply Forall_forall. intros c Hin.
      destruct (decide (c = SPACE)) as [| Hsp]; [left; assumption |].
      destruct (Py.is_linebreak c) eqn:Hlb; [right; reflexivity |].
      exfalso. apply Hnone. apply Exists_exists. exists c. auto. }
    assert (Hraise : Terminal_init fuel input (w, h) = Raise ValueError).
    { unfold Terminal_init. rewrite (decompose_input_blank fuel w input Hw Hfuel Hblank).
      reflexivity. }
    split; [split | right; exact Hraise].
    + intros (t & out & Hok). rewrite Hraise in Hok. discriminate.
    + intros (c & Hin & Hsp & Hlb). exfalso. apply Hnone.
      apply Exists_exists. exists c. auto.
Qed.

Lemma init_returns_iff_witness :
  ((exists t out, Terminal_init 2 [LF; CR] (80, 24) = Ok (t, out))
   <-> exists c, c ∈ [LF; CR] /\ c <> SPACE /\ Py.is_linebreak c = false)
  /\ ((exists t out, Terminal_init 2 [LF; CR] (80, 24) = Ok (t, out))
      \/ Terminal_init 2 [LF; CR] (80, 24) = Raise ValueError).
Proof. apply init_returns_iff; [lia | simpl; lia]. Defined.

(** A run of the loop that returned cut chunks no longer than the width. *)
Lemma wrap_loop_Ok_inv (fuel : nat) (w : Z) :
  forall line acc last acc',
    wrap_loop fuel w line acc = Ok (last, acc') ->
    len last <= w
    /\ exists chunks, acc' = acc ++ chunks /\ Forall (fun ch => len ch <= w) chunks.
Proof.
  destruct (Z_lt_le_dec w 0) as [Hneg | Hw].
  { intros line acc last acc' Hrun. rewrite wrap_loop_negative in Hrun by exact Hneg.
    discriminate. }
  induction fuel as [| fuel IH]; intros line acc last acc' Hrun; simpl in Hrun;
    case_bool_decide as Hlong; try discriminate.
  - injection Hrun as <- <-. split; [lia |]. exists []. rewrite app_nil_r. auto.
  - destruct (IH _ _ _ _ Hrun) as (Hlast & chunks & -> & Hall).
    split; [exact Hlast |]. exists (Py.slice_to w line :: chunks).
    rewrite <- app_assoc. split; [reflexivity |]. constructor; [| exact Hall].
    unfold len at 1. rewrite slice_to_length by lia. lia.
  - injection Hrun as <- <-. split; [lia |]. exists []. rewrite app_nil_r. auto.
Qed.

Lemma wrap_lines_Ok_inv (fuel : nat) (w : Z) (input_lines : list str) :
  forall acc wrapped,
    wrap_lines fuel w input_lines acc = Ok wrapped ->
    exists new, wrapped = acc ++ new /\ Forall (fun l => len l <= w) new.
Proof.
  induction input_lines as [| line rest IH]; intros acc wrapped Hrun; simpl in Hrun.
  - injection Hrun as <-. exists []. rewrite app_nil_r. auto.
  - apply bind_Ok in Hrun as ([last acc'] & Hloop & Hrest).
    apply wrap_loop_Ok_inv in Hloop as (Hlast & chunks & -> & Hall).
    apply IH in Hrest as (new & -> & Hnew).
    destruct last as [| s last].
    + exists (chunks ++ new). rewrite app_assoc. split; [reflexivity |].
      apply Forall_app. auto.
    + exists (chunks ++ [s :: last] ++ new). rewrite <- !app_assoc.
      split; [reflexivity |]. apply Forall_app. split; [exact Hall |].
      constructor; assumption.
Qed.

(** Whenever decomposition returns, the coordinates are within the wrapped
    text. *)
Lemma decompose_input_bounds (fuel : nat) (w : Z) (input : str) cs :
  _decompose_input fuel w input = Ok cs ->
  exists wrapped,
    wrap_lines fuel w (Py.splitlines input) [] = Ok wrapped
    /\ cs = decompose_rows (len wrapped) 0 wrapped
    /\ Forall (fun ch => 1 <= column (input_coord ch) <= w
                         /\ 1 <= row (input_coord ch) <= len wrapped) cs.
Proof.
  unfold _decompose_input. intros Hrun.
  apply bind_Ok in Hrun as (wrapped & Hwrap & [= <-]).
  exists wrapped. split; [exact Hwrap | split; [reflexivity |]].
  apply wrap_lines_Ok_inv in Hwrap as (new & -> & Hall). simpl in *.
  rewrite Forall_forall in Hall.
  apply Forall_forall. intros ch Hch.
  apply decompose_rows_spec in Hch as (j & line & i & s & Hj & Hi & _ & ->).
  pose proof (Hall line (list_elem_of_lookup_2 _ _ _ Hj)) as Hline.
  apply lookup_lt_Some in Hi, Hj. unfold len in *. simpl. lia.
Qed.

(** X12. The OutputArea of a constructed Terminal fits the terminal: it is
    at least one column and at most the terminal's width wide, and its top is
    at most the terminal's height less one and at most the height of the
    input, which is at least 1. *)
Theorem init_area_fits (input : str) (w h : Z) (fuel : nat) t out :
  Terminal_init fuel input (w, h) = Ok (t, out) ->
  1 <= right (output_area t) <= width t
  /\ top (output_area t) <= height t - 1
  /\ top (output_area t) <= input_height t
  /\ 1 <= input_height t
  /\ right (output_area t) = input_width t.
Proof.
  intros Hinit.
  apply Terminal_init_Ok in Hinit as (cs & mw & mh & Hcs & Hmw & Hmh & -> & _).
  apply decompose_input_bounds in Hcs as (wrapped & _ & _ & Hall).
  rewrite Forall_forall in Hall.
  apply max_Ok in Hmw as [Hmw _], Hmh as [Hmh _].
  apply list_elem_of_fmap in Hmw as (cw & -> & Hcw).
  apply list_elem_of_fmap in Hmh as (chh & -> & Hch).
  pose proof (Hall _ Hcw). pose proof (Hall _ Hch).
  simpl. repeat split; lia.
Qed.

Lemma init_area_fits_witness :
  exists t out,
    Terminal_init 7 (str_of_string "abcdefg") (3, 2) = Ok (t, out)
    /\ output_area t = new_OutputArea 1 3
    /\ 1 <= right (output_area t) <= width t
    /\ top (output_area t) <= height t - 1.
Proof.
  eexists _, _. split; [reflexivity |]. split; [reflexivity |].
  pose proof (init_area_fits (str_of_string "abcdefg") 3 2 7 _ _ eq_refl) as (Hr & Ht & _).
  split; [exact Hr | exact Ht].
Defined.

(** ** The frame of the settled characters *)

(** X13. When every Character of a constructed Terminal is drawn at its
    input coordinate, the render returns and the buffer shows the wrapped
    input: the cell at row [i + 1] and column [j + 1] of the output area has
    the symbol that the wrapped lines have at that coordinate, and a space
    where the line is shorter. *)
Theorem settled_frame_shows_input (input : str) (w h : Z) (fuel : nat) t out :
  Terminal_init fuel input (w, h) = Ok (t, out) ->
  exists wrapped rows,
    wrap_lines fuel w (Py.splitlines input) [] = Ok wrapped
    /\ _update_terminal_state (output_area t) (settled <$> characters t) = Ok rows
    /\ forall i j : nat,
         Z.of_nat i < top (output_area t) -> Z.of_nat j < right (output_area t) ->
         cell rows i j
         = Some (default SPACE
                   (symbol_at wrapped (mkCoord (Z.of_nat j + 1) (Z.of_nat i + 1)))).
Proof.
  intros Hinit.
  apply Terminal_init_Ok in Hinit as (cs & mw & mh & Hcs & Hmw & Hmh & -> & _).
  apply decompose_input_bounds in Hcs as (wrapped & Hwrap & Hdec & Hbounds).
  rewrite Forall_forall in Hbounds.
  apply max_Ok in Hmw as [_ Hmw], Hmh as [Hmh _].
  rewrite Forall_forall in Hmw.
  apply list_elem_of_fmap in Hmh as (chh & Hmh & Hchh).
  pose proof (Hbounds _ Hchh) as Htop. rewrite <- Hmh in Htop.
  set (area := new_OutputArea (Z.min (h - 1) mh) mw).
  set (chars := filter (fun c => row (input_coord c) <= top area) cs).
  change (output_area (built input w h cs mw mh)) with area.
  change (characters (built input w h cs mw mh)) with chars.
  assert (Hchars : forall c, c ∈ chars <-> c ∈ cs /\ row (input_coord c) <= top area).
  { intros c. unfold chars. rewrite list_elem_of_filter. tauto. }
  assert (Hinside : forall c, c ∈ chars -> inside area (input_coord c)).
  { intros c Hc. apply Hchars in Hc as [Hc Hrow].
    pose proof (Hbounds _ Hc) as [Hcol Hr].
    assert (column (input_coord c) <= mw).
    { apply Hmw. apply list_elem_of_fmap. exists c. auto. }
    unfold inside. simpl in *. lia. }
  destruct (render_inside_returns area (settled <$> chars)) as [rows Hrun];
    [simpl; lia | simpl; lia | |].
  { apply Forall_forall. intros x Hx _.
    apply list_elem_of_fmap in Hx as (c & -> & Hc). apply Hinside. exact Hc. }
  exists wrapped, rows. split; [exact Hwrap | split; [exact Hrun |]].
  intros i j Hi Hj. unfold _update_terminal_state in Hrun.
  destruct (stamp_all_spec _ _ _ _ _ (grid_blank area) Hrun) as [_ Hcell].
  rewrite Hcell. clear Hcell Hrun.
  set (n := Z.to_nat (top area)). set (m := Z.to_nat (right area)).
  assert (Hland : forall c, c ∈ chars ->
            landing n m (settled c)
            = Some (Z.to_nat (row (input_coord c) - 1), Z.to_nat (column (input_coord c) - 1))).
  { intros c Hc. destruct (Hinside c Hc) as [Hr Hcl]. simpl in Hr, Hcl.
    apply landing_inside;
      [reflexivity | unfold n; simpl; lia | unfold m; simpl; lia
       | simpl; lia | simpl; lia ]. }
  destruct (last_stamp n m (settled <$> chars) i j) as [x |] eqn:Hlast; unfold last_stamp in Hlast.
  - apply last_Some_elem_of, list_elem_of_filter in Hlast as [Hx Hin].
    apply list_elem_of_fmap in Hin as (c & -> & Hc).
    rewrite (Hland c Hc) in Hx. injection Hx as Hi' Hj'.
    destruct (Hinside c Hc) as [Hr Hcl]. simpl in Hr, Hcl.
    apply Hchars in Hc as [Hc _]. rewrite Hdec in Hc.
    apply decompose_rows_spec in Hc as (jj & line & ii & s & Hjj & Hii & _ & ->).
    simpl in *. apply lookup_lt_Some in Hjj as Hlt. unfold symbol_at. simpl.
    replace (Z.to_nat (len wrapped - (Z.of_nat i + 1))) with jj by (unfold len in *; lia).
    rewrite Hjj. simpl.
    replace (Z.to_nat (Z.of_nat j + 1 - 1)) with ii by lia.
    rewrite Hii. reflexivity.
  - apply last_None in Hlast.
    rewrite cell_blank by (unfold n, m in *; lia). f_equal.
    destruct (symbol_at wrapped _) as [s |] eqn:Hat; [| reflexivity]. simpl.
    destruct (decide (s = SPACE)) as [-> | Hs]; [reflexivity |]. exfalso.
    unfold symbol_at in Hat. simpl in Hat.
    destruct (wrapped !! Z.to_nat (len wrapped - (Z.of_nat i + 1))) as [line |] eqn:Hline;
      [| discriminate].
    simpl in Hat. replace (Z.to_nat (Z.of_nat j + 1 - 1)) with j in Hat by lia.
    set (c := new_EffectCharacter s (Z.of_nat j + 1)
                (len wrapped - (0 + Z.of_nat (Z.to_nat (len wrapped - (Z.of_nat i + 1)))))).
    assert (Hrow : row (input_coord c) = Z.of_nat i + 1).
    { simpl in *. unfold len in *. lia. }
    assert (Hc : c ∈ chars).
    { apply Hchars. split.
      - rewrite Hdec. apply decompose_rows_spec. eexists _, line, j, s. eauto.
      - rewrite Hrow. lia. }
    assert (Hx : settled c ∈ filter (fun ch => landing n m ch = Some (i, j)) (settled <$> chars)).
    { apply list_elem_of_filter. split.
      - rewrite (Hland c Hc), Hrow. simpl. f_equal. f_equal; lia.
      - apply list_elem_of_fmap. exists c. auto. }
    rewrite Hlast in Hx. inversion Hx.
Qed.

Lemma settled_frame_shows_input_witness :
  exists t out wrapped rows,
    Terminal_init 6 (str_of_string "ab c" ++ [LF] ++ [B]) (3, 24) = Ok (t, out)
    /\ wrapped = [str_of_string "ab "; str_of_string "c"; [B]]
    /\ rows = [[B; SPACE]; str_of_string "c "; str_of_string "ab"]
    /\ wrap_lines 6 3 (Py.splitlines (str_of_string "ab c" ++ [LF] ++ [B])) [] = Ok wrapped
    /\ _update_terminal_state (output_area t) (settled <$> characters t) = Ok rows
    /\ forall i j : nat,
         Z.of_nat i < top (output_area t) -> Z.of_nat j < right (output_area t) ->
         cell rows i j
         = Some (default SPACE
                   (symbol_at wrapped (mkCoord (Z.of_nat j + 1) (Z.of_nat i + 1)))).
Proof.
  pose proof (settled_frame_shows_input (str_of_string "ab c" ++ [LF] ++ [B]) 3 24 6 _ _ eq_refl)
    as (wrapped & rows & Hwrap & Hrun & Hcells).
  eexists _, _, wrapped, rows. split; [reflexivity |].
  split; [| split; [| split; [exact Hwrap | split; [exact Hrun | exact Hcells]]]].
  - vm_compute in Hwrap. injection Hwrap as <-. reflexivity.
  - vm_compute in Hrun. injection Hrun as <-. reflexivity.
Defined.

(** ** The binary string of a character *)

Lemma int_2_snoc (s : str) (d : char) : int_2 (s ++ [d]) = (2 * int_2 s + (d - ZERO))%N.
Proof. unfold int_2. rewrite foldl_app. reflexivity. Qed.

Lemma int_2_format_b_pos (p : positive) : int_2 (format_b_pos p) = Npos p.
Proof.
  induction p as [p IH | p IH |]; simpl; [| | reflexivity];
    rewrite int_2_snoc, IH; unfold ONE, ZERO; lia.
Qed.

Lemma int_2_zeros (k : nat) (s : str) : int_2 (replicate k ZERO ++ s) = int_2 s.
Proof. unfold int_2. induction k as [| k IH]; [reflexivity | exact IH]. Qed.

Lemma format_b_pos_digits (p : positive) :
  Forall (fun d => d = ZERO \/ d = ONE) (format_b_pos p).
Proof.
  induction p as [p IH | p IH |]; simpl.
  - apply Forall_app. split; [exact IH |]. constructor; [right; reflexivity | constructor].
  - apply Forall_app. split; [exact IH |]. constructor; [left; reflexivity | constructor].
  - constructor; [right; reflexivity | constructor].
Qed.

(** The number of digits is the number of bits. *)
Lemma format_b_pos_length (p : positive) (k : nat) :
  (length (format_b_pos p) <= k)%nat <-> Z.pos p < 2 ^ Z.of_nat k.
Proof.
  revert k. induction p as [p IH | p IH |]; intros k; simpl.
  - rewrite length_app. simpl. destruct k as [| k]; [simpl; lia |].
    rewrite Nat2Z.inj_succ, Z.pow_succ_r by lia. specialize (IH k). lia.
  - rewrite length_app. simpl. destruct k as [| k]; [simpl; lia |].
    rewrite Nat2Z.inj_succ, Z.pow_succ_r by lia. specialize (IH k). lia.
  - destruct k as [| k]; [simpl; lia |].
    rewrite Nat2Z.inj_succ, Z.pow_succ_r by lia.
    assert (0 < 2 ^ Z.of_nat k) by (apply Z.pow_pos_nonneg; lia). lia.
Qed.

(** X14. The binary string of a character is its code point in binary: it
    is made of the digits 0 and 1, read as a number in base 2 it gives the
    code point back, and it has at least eight digits, exactly eight for a
    code point below 256 and more only above. *)
Theorem binary_string_roundtrip (ch : EffectCharacter) :
  Forall (fun d => d = ZERO \/ d = ONE) (binary_string ch)
  /\ int_2 (binary_string ch) = symbol ch
  /\ (8 <= length (binary_string ch))%nat
  /\ (length (binary_string ch) = 8%nat <-> (symbol ch < 256)%N).
Proof.
  unfold binary_string, format_08b. generalize (symbol ch) as n. intros n.
  split; [| split; [| split]].
  - apply Forall_app. split; [apply Forall_replicate; auto |].
    destruct n; [| apply format_b_pos_digits].
    constructor; [left; reflexivity | constructor].
  - rewrite int_2_zeros. destruct n; [reflexivity | apply int_2_format_b_pos].
  - rewrite length_app, length_replicate. lia.
  - rewrite length_app, length_replicate.
    destruct n as [| p]; [simpl; split; [lia | reflexivity] |].
    pose proof (format_b_pos_length p 8) as H8. simpl in *. lia.
Qed.

(** ** The paths of the binary representations *)

Lemma distance_zero (c c' : Coord) : distance c c' <= 0 -> c = c'.
Proof.
  destruct c as [x y], c' as [x' y']. unfold distance. simpl. intros H.
  f_equal; lia.
Qed.

Section PathProperties.

Variable randint : nat -> Z -> Z -> Z.
Variable random_coord : nat -> Coord.
Variable random_choice : nat -> orientation.
Variable row_reach : Z.
Hypothesis randint_range : forall k a b, a <= b -> a <= randint k a b <= b.

(** One pass of the body adds one leg, and binds [next_coord] to its end. *)
Lemma path_step_leg (target : Coord) (st : path_state) (last_coord : Coord) :
  last_coord <> target ->
  exists st' c,
    path_step randint row_reach target st last_coord = Ok st'
    /\ path_coords st' = path_coords st ++ [c]
    /\ next_coord st' = Some c
    /\ drawn_leg row_reach target last_coord c.
Proof.
  intros Hne.
  assert (Hfar : 0 < distance last_coord target).
  { destruct (Z_lt_le_dec 0 (distance last_coord target)) as [| Hle]; [assumption |].
    exfalso. apply Hne, distance_zero, Hle. }
  unfold path_step, py_randint, distance in *.
  destruct (last_orientation st); case_bool_decide as Hfree.
  - rewrite bool_decide_true by lia. simpl. eexists _, _.
    split; [reflexivity |]. split; [reflexivity |]. split; [reflexivity |].
    match goal with |- context [randint ?k ?a ?b] =>
      pose proof (randint_range k a b ltac:(lia)) as Hr; revert Hr;
      generalize (randint k a b) end.
    intros r Hr. unfold drawn_leg, leg, distance, direction. simpl.
    split; [| right; left]; repeat case_bool_decide; lia.
  - eexists _, _. split; [reflexivity |]. split; [reflexivity |]. split; [reflexivity |].
    unfold drawn_leg, leg, distance. split; [lia | left; reflexivity].
  - rewrite bool_decide_true by lia. simpl. eexists _, _.
    split; [reflexivity |]. split; [reflexivity |]. split; [reflexivity |].
    match goal with |- context [randint ?k ?a ?b] =>
      pose proof (randint_range k a b ltac:(lia)) as Hr; revert Hr;
      generalize (randint k a b) end.
    intros r Hr. unfold drawn_leg, leg, distance, direction. simpl.
    split; [| right; right]; repeat case_bool_decide; lia.
  - eexists _, _. split; [reflexivity |]. split; [reflexivity |]. split; [reflexivity |].
    unfold drawn_leg, leg, distance. split; [lia | left; reflexivity].
Qed.

(** The loop, from a path whose last coordinate is [last_coord]. *)
Lemma path_loop_walks (target : Coord) (fuel : nat) :
  forall (st : path_state) (walk : list Coord) (last_coord : Coord),
    path_coords st = walk ++ [last_coord] ->
    distance last_coord target <= Z.of_nat fuel ->
    Sorted (drawn_leg row_reach target) (path_coords st) ->
    exists st' more,
      path_loop randint row_reach fuel target st = Ok st'
      /\ path_coords st' = path_coords st ++ more
      /\ last (path_coords st') = Some target
      /\ Sorted (drawn_leg row_reach target) (path_coords st')
      /\ Z.of_nat (length more) <= distance last_coord target
      /\ (last_coord <> target -> next_coord st' = Some target)
      /\ (last_coord = target -> st' = st).
Proof.
  induction fuel as [| fuel IH]; intros st walk last_coord Hpath Hfuel Hsorted.
  - assert (Hdist : 0 <= distance last_coord target) by (unfold distance; lia).
    assert (Heq : last_coord = target) by (apply distance_zero; lia).
    exists st, []. cbn [path_loop]. rewrite app_nil_r, Hpath, last_snoc.
    rewrite bool_decide_false by auto.
    repeat split; auto; try congruence.
  - cbn [path_loop]. rewrite Hpath, last_snoc. case_bool_decide as Hne.
    + destruct (path_step_leg target st last_coord Hne)
        as (st1 & c & Hstep & Hpath1 & Hnext1 & Hleg).
      rewrite Hstep. cbn [bind].
      destruct (IH st1 (path_coords st) c) as (st' & more & Hrun & Hpath' & Hlast & Hs & Hlen & Hn & Hsame).
      * exact Hpath1.
      * destruct Hleg as ((_ & _ & _ & Hlt) & _). lia.
      * rewrite Hpath1. apply Sorted_snoc; [exact Hsorted |].
        rewrite Hpath. constructor. exact Hleg.
      * exists st', (c :: more). rewrite Hrun. split; [reflexivity |].
        rewrite Hpath', Hpath1, <- app_assoc. simpl.
        split; [rewrite <- Hpath; reflexivity |].
        split; [rewrite <- Hlast, Hpath', Hpath1, <- app_assoc; reflexivity |].
        split; [rewrite Hpath', Hpath1, <- app_assoc in Hs; exact Hs |].
        split; [destruct Hleg as ((_ & _ & _ & Hlt) & _); simpl length; lia |].
        split; [| congruence]. intros _.
        destruct (decide (c = target)) as [Hc | Hc]; [| auto].
        rewrite (Hsame Hc), Hnext1, Hc. reflexivity.
    + assert (Heq : last_coord = target) by (destruct (decide (last_coord = target)); tauto).
      exists st, []. rewrite app_nil_r, Hpath, last_snoc.
      repeat split; auto; try congruence.
      simpl. unfold distance. lia.
Qed.

(** X15.  [BinaryPathEffect.prepare_data], the path of one representation:
    when the drawn start is not the input coordinate of the character and
    every [random.randint(a, b)] lies in its range, the path is built without
    an error within as many passes of the loop as the start is away from the
    input coordinate (columns plus rows).  It starts at the drawn start, every
    leg of it runs along one row or one column, never moves away from the
    input coordinate on either axis and gets strictly nearer to it, and it
    ends with the input coordinate three times: once reached by the loop,
    once as [next_coord], once as [final_coord].  A leg that does not end
    at the input coordinate is at most [max(10, int(input_width * 0.2))] rows
    or at most 4 columns long. *)
Theorem build_path_reaches_target (target : Coord) (next : option Coord) (k fuel : nat) :
  random_coord k <> target ->
  distance (random_coord k) target <= Z.of_nat fuel ->
  exists st walk,
    build_path randint random_coord random_choice row_reach fuel target next k
    = Ok (Some st)
    /\ path_coords st = (random_coord k :: walk) ++ [target; target]
    /\ last walk = Some target
    /\ Sorted (drawn_leg row_reach target) (random_coord k :: walk)
    /\ Z.of_nat (length walk) <= distance (random_coord k) target.
Proof.
  intros Hstart Hfuel. unfold build_path.
  set (st0 := {| path_coords := [random_coord k];
                 last_orientation := random_choice (S k);
                 next_coord := next; calls := S (S k) |}).
  destruct (path_loop_walks target fuel st0 [] (random_coord k))
    as (st & walk & Hrun & Hpath & Hlast & Hsorted & Hlen & Hnext & _).
  - reflexivity.
  - exact Hfuel.
  - simpl. repeat constructor.
  - rewrite Hrun. cbn [bind]. rewrite (Hnext Hstart).
    eexists _, walk. split; [reflexivity |]. cbn [path_coords].
    rewrite Hpath. cbn [path_coords st0]. rewrite <- app_assoc.
    split; [reflexivity |].
    rewrite Hpath in Hlast, Hsorted. cbn [path_coords st0] in Hlast, Hsorted.
    simpl in Hlast, Hsorted.
    split; [| split; [exact Hsorted | exact Hlen]].
    destruct walk as [| c walk]; [| exact Hlast].
    simpl in Hlast. congruence.
Qed.


End PathProperties.

Lemma build_path_reaches_target_witness :
  exists st walk,
    build_path (fun _ a _ => a) (fun _ => mkCoord 0 3) (fun _ => by_col) 2 5
      (mkCoord 2 1) None 0 = Ok (Some st)
    /\ path_coords st = (mkCoord 0 3 :: walk) ++ [mkCoord 2 1; mkCoord 2 1]
    /\ last walk = Some (mkCoord 2 1)
    /\ Sorted (drawn_leg 2 (mkCoord 2 1)) (mkCoord 0 3 :: walk)
    /\ Z.of_nat (length walk) <= distance (mkCoord 0 3) (mkCoord 2 1).
Proof.
  apply (build_path_reaches_target (fun _ a _ => a) (fun _ => mkCoord 0 3)
           (fun _ => by_col) 2).
  - intros _ a b Hab. lia.
  - discriminate.
  - unfold distance. simpl. lia.
Defined.


(** ** The preparation of the rain *)

Lemma insert_by_key_filter {X} (key : X -> Z) (r : Z) (x : X) (l : list X) :
  filter (fun y => key y = r) (insert_by_key key x l)
  = filter (fun y => key y = r) (x :: l).
Proof.
  induction l as [| y l IH]; [reflexivity |].
  cbn [insert_by_key]. case_bool_decide as Hle; [reflexivity |].
  rewrite (filter_cons _ y), IH, !(filter_cons _ x), (filter_cons _ y).
  repeat case_decide; try reflexivity. lia.
Qed.

Lemma py_sorted_filter {X} (key : X -> Z) (r : Z) (l : list X) :
  filter (fun y => key y = r) (py_sorted key l) = filter (fun y => key y = r) l.
Proof.
  induction l as [| x l IH]; [reflexivity |].
  cbn [py_sorted foldr]. fold (py_sorted key l).
  rewrite insert_by_key_filter, !(filter_cons _ x), IH. reflexivity.
Qed.

Lemma insert_by_key_Permutation {X} (key : X -> Z) (x : X) (l : list X) :
  insert_by_key key x l ≡ₚ x :: l.
Proof.
  induction l as [| y l IH]; [reflexivity |].
  cbn [insert_by_key]. case_bool_decide; [reflexivity |].
  rewrite IH. apply Permutation_swap.
Qed.

Lemma py_sorted_Permutation {X} (key : X -> Z) (l : list X) : py_sorted key l ≡ₚ l.
Proof.
  induction l as [| x l IH]; [reflexivity |].
  cbn [py_sorted foldr]. fold (py_sorted key l).
  rewrite insert_by_key_Permutation, IH. reflexivity.
Qed.

Lemma add_to_group_lookup (cs : list EffectCharacter) (groups : gmap Z (list nat))
    (i : nat) (r : Z) :
  Rain.add_to_group cs groups i !! r
  = if decide (Rain.input_row cs i = r)
    then Some (default [] (groups !! r) ++ [i])
    else groups !! r.
Proof.
  unfold Rain.add_to_group.
  destruct (decide (Rain.input_row cs i = r)) as [Hr | Hr].
  - subst r. rewrite lookup_alter_eq. case_decide as Hnew.
    + rewrite lookup_insert_eq, Hnew. reflexivity.
    + destruct (groups !! Rain.input_row cs i); [reflexivity | congruence].
  - rewrite lookup_alter_ne by exact Hr. case_decide.
    + rewrite lookup_insert_ne by exact Hr. reflexivity.
    + reflexivity.
Qed.

Lemma add_to_groups_lookup (cs : list EffectCharacter) (l : list nat) (r : Z) :
  forall groups : gmap Z (list nat),
    let members := filter (fun i => Rain.input_row cs i = r) l in
    foldl (Rain.add_to_group cs) groups l !! r
    = match groups !! r, members with
      | None, [] => None
      | group, _ => Some (default [] group ++ members)
      end.
Proof.
  induction l as [| i l IH]; intros groups; cbn [foldl].
  - simpl. destruct (groups !! r); simpl; [rewrite app_nil_r |]; reflexivity.
  - cbn zeta in *. rewrite IH, add_to_group_lookup, (filter_cons _ i).
    case_decide as Hr.
    + destruct (groups !! r); simpl; [rewrite <- app_assoc |]; reflexivity.
    + reflexivity.
Qed.

Lemma add_to_group_refs (cs : list EffectCharacter) (groups : gmap Z (list nat)) (i : nat) :
  concat (snd <$> map_to_list (Rain.add_to_group cs groups i))
  ≡ₚ concat (snd <$> map_to_list groups) ++ [i].
Proof.
  unfold Rain.add_to_group. set (r := Rain.input_row cs i).
  assert (Hstep : forall (m : gmap Z (list nat)) g, m !! r = Some g ->
            concat (snd <$> map_to_list (alter (fun group => group ++ [i]) r m))
            ≡ₚ concat (snd <$> map_to_list m) ++ [i]).
  { intros m g Hg.
    rewrite <- (map_to_list_delete m r g Hg).
    assert (Halter : alter (fun group => group ++ [i]) r m = <[r := g ++ [i]]> (delete r m)).
    { apply map_eq. intros r'. destruct (decide (r = r')) as [<- | Hne].
      - rewrite lookup_alter_eq, lookup_insert_eq, Hg. reflexivity.
      - rewrite lookup_alter_ne, lookup_insert_ne, lookup_delete_ne by exact Hne.
        reflexivity. }
    rewrite Halter, map_to_list_insert by apply lookup_delete_eq.
    simpl. rewrite <- !app_assoc. apply Permutation_app_head, Permutation_app_comm. }
  case_decide as Hnew.
  - rewrite (Hstep (<[r := []]> groups) []) by apply lookup_insert_eq.
    rewrite map_to_list_insert by exact Hnew. reflexivity.
  - destruct (groups !! r) as [g |] eqn:Hg; [| congruence].
    apply (Hstep groups g Hg).
Qed.

Lemma add_to_groups_refs (cs : list EffectCharacter) (l : list nat) :
  forall groups : gmap Z (list nat),
    concat (snd <$> map_to_list (foldl (Rain.add_to_group cs) groups l))
    ≡ₚ concat (snd <$> map_to_list groups) ++ l.
Proof.
  induction l as [| i l IH]; intros groups; cbn [foldl].
  - rewrite app_nil_r. reflexivity.
  - rewrite IH, add_to_group_refs, <- app_assoc. reflexivity.
Qed.

(** The first loop of [prepare_data] over the first [n] characters. *)
Lemma prepare_characters (e : Rain.RainEffect) (n : nat) :
  let e' := foldl Rain.prepare_character e (seq 0 n) in
  (forall i, Rain.characters e' !! i
             = (if decide (i < n)%nat
                then (fun ch => Rain.set_row (Z.min (Rain.input_height e)
                                               (Rain.terminal_height e - 1))
                                  (Rain.set_column (column (input_coord ch)) ch))
                       <$> Rain.characters e !! i
                else Rain.characters e !! i))
  /\ Rain.pending_chars e' = Rain.pending_chars e ++ seq 0 n
  /\ Rain.animating_chars e' = Rain.animating_chars e
  /\ Rain.group_by_row e' = Rain.group_by_row e
  /\ Rain.input_height e' = Rain.input_height e
  /\ Rain.terminal_height e' = Rain.terminal_height e.
Proof.
  induction n as [| n IH].
  - simpl. rewrite app_nil_r. repeat split; auto.
  - rewrite seq_S, foldl_snoc. cbn zeta in *.
    destruct IH as (Hcs & Hpending & Hanimating & Hgroups & Hih & Hth).
    cbn [Rain.prepare_character Rain.characters Rain.pending_chars Rain.animating_chars
         Rain.group_by_row Rain.input_height Rain.terminal_height].
    rewrite Hpending, Hih, Hth, <- app_assoc.
    repeat split; auto.
    intros i. simpl. destruct (decide (i = n)) as [-> | Hne].
    + rewrite list_lookup_alter_eq, Hcs.
      rewrite decide_False by lia. rewrite decide_True by lia. reflexivity.
    + rewrite list_lookup_alter_ne by auto. rewrite Hcs.
      repeat case_decide; try reflexivity; lia.
Qed.

Lemma prepare_characters_length (e : Rain.RainEffect) (n : nat) :
  length (Rain.characters (foldl Rain.prepare_character e (seq 0 n)))
  = length (Rain.characters e).
Proof.
  induction n as [| n IH]; [reflexivity |].
  rewrite seq_S, foldl_snoc. cbn [Rain.prepare_character Rain.characters].
  rewrite length_alter. exact IH.
Qed.

Lemma prepare_data_input_row (e : Rain.RainEffect) (i : nat) :
  Rain.input_row (Rain.characters (foldl Rain.prepare_character e
                                     (seq 0 (length (Rain.characters e))))) i
  = Rain.input_row (Rain.characters e) i.
Proof.
  unfold Rain.input_row.
  destruct (prepare_characters e (length (Rain.characters e))) as (Hcs & _).
  rewrite Hcs. case_decide; [| reflexivity].
  destruct (Rain.characters e !! i); reflexivity.
Qed.

(** X17.  [RainEffect.prepare_data], the first loop: every character is put
    in the column of its input coordinate and in the row
    [min(input_height, terminal_height - 1)], and nothing else of it changes;
    the characters are appended to the pending ones in their order. *)
Theorem prepare_data_places (e : Rain.RainEffect) :
  let e' := Rain.prepare_data e in
  length (Rain.characters e') = length (Rain.characters e)
  /\ (forall i ch, Rain.characters e !! i = Some ch ->
        exists ch', Rain.characters e' !! i = Some ch'
          /\ current_coord ch'
             = mkCoord (column (input_coord ch))
                 (Z.min (Rain.input_height e) (Rain.terminal_height e - 1))
          /\ input_coord ch' = input_coord ch
          /\ symbol ch' = symbol ch
          /\ is_active ch' = is_active ch
          /\ layer ch' = layer ch)
  /\ Rain.pending_chars e'
     = Rain.pending_chars e ++ seq 0 (length (Rain.characters e))
  /\ Rain.animating_chars e' = Rain.animating_chars e.
Proof.
  cbn zeta. unfold Rain.prepare_data.
  cbn [Rain.characters Rain.pending_chars Rain.animating_chars].
  destruct (prepare_characters e (length (Rain.characters e)))
    as (Hcs & Hpending & Hanimating & _).
  cbn zeta in *.
  split; [| split; [| split; [exact Hpending | exact Hanimating]]].
  - apply prepare_characters_length.
  - intros i ch Hch. rewrite Hcs.
    rewrite decide_True by (apply lookup_lt_Some in Hch; exact Hch).
    rewrite Hch. simpl. eexists. split; [reflexivity |].
    repeat split; reflexivity.
Qed.

(** X18.  [RainEffect.prepare_data], the second loop: the group of a row
    [r] is what it was before, followed by the references to the characters
    of input row [r], in the order of the pending characters (the ones that
    were pending before, then the characters of the effect); a row has a
    group afterwards only if it had one or some character has that input
    row.  The sort decides the order in which the rows get their groups,
    not what the groups hold. *)
Theorem prepare_data_groups (e : Rain.RainEffect) (r : Z) :
  let listed := Rain.pending_chars e ++ seq 0 (length (Rain.characters e)) in
  let members := filter (fun i => Rain.input_row (Rain.characters e) i = r) listed in
  default [] (Rain.group_by_row (Rain.prepare_data e) !! r)
  = default [] (Rain.group_by_row e !! r) ++ members
  /\ (Rain.group_by_row (Rain.prepare_data e) !! r = None
      <-> Rain.group_by_row e !! r = None /\ members = []).
Proof.
  cbn zeta. unfold Rain.prepare_data. cbn [Rain.group_by_row].
  destruct (prepare_characters e (length (Rain.characters e)))
    as (_ & Hpending & _ & Hgroups & _).
  cbn zeta in *. rewrite Hpending, Hgroups.
  pose proof (add_to_groups_lookup
                (Rain.characters (foldl Rain.prepare_character e
                                    (seq 0 (length (Rain.characters e)))))
                (py_sorted
                   (Rain.input_row
                      (Rain.characters (foldl Rain.prepare_character e
                                          (seq 0 (length (Rain.characters e))))))
                   (Rain.pending_chars e ++ seq 0 (length (Rain.characters e))))
                r (Rain.group_by_row e)) as Hlookup.
  cbn zeta in Hlookup. rewrite py_sorted_filter in Hlookup.
  rewrite (list_filter_iff _ (fun i => Rain.input_row (Rain.characters e) i = r))
    in Hlookup by (intros i; rewrite prepare_data_input_row; reflexivity).
  rewrite Hlookup. clear Hlookup.
  generalize (filter (fun i => Rain.input_row (Rain.characters e) i = r)
                (Rain.pending_chars e ++ seq 0 (length (Rain.characters e)))).
  intros members.
  destruct (Rain.group_by_row e !! r) as [group |]; destruct members as [| i members];
    simpl; (split; [reflexivity |]); split; try discriminate; auto;
    intros [? ?]; discriminate.
Qed.

(** X19.  [RainEffect.prepare_data]: the references that the groups hold
    afterwards are those they held before and one for every pending
    character, the characters of the effect included: every character of a
    fresh effect is in exactly one group. *)
Theorem prepare_data_partitions (e : Rain.RainEffect) :
  concat (snd <$> map_to_list (Rain.group_by_row (Rain.prepare_data e)))
  ≡ₚ concat (snd <$> map_to_list (Rain.group_by_row e))
     ++ Rain.pending_chars e ++ seq 0 (length (Rain.characters e)).
Proof.
  unfold Rain.prepare_data. cbn [Rain.group_by_row].
  destruct (prepare_characters e (length (Rain.characters e)))
    as (_ & Hpending & _ & Hgroups & _).
  cbn zeta in *.
  rewrite add_to_groups_refs, py_sorted_Permutation, Hpending, Hgroups.
  reflexivity.
Qed.

(** ** The passes of the rain *)

Lemma min_entry_spec {V} (d : gmap Z V) :
  match min_entry d with
  | None => d = ∅
  | Some (k, v) => d !! k = Some v /\ forall k' v', d !! k' = Some v' -> k <= k'
  end.
Proof.
  assert (Hlist : forall l : list (Z * V),
            match foldr (fun kv best =>
                           match best with
                           | Some b => if bool_decide (kv.1 <= b.1) then Some kv else Some b
                           | None => Some kv
                           end) None l with
            | None => l = []
            | Some b => b ∈ l /\ forall kv, kv ∈ l -> b.1 <= kv.1
            end).
  { induction l as [| kv l IH]; [reflexivity |]. cbn [foldr].
    destruct (foldr _ None l) as [b |].
    - destruct IH as [Hin Hleast]. case_bool_decide as Hle.
      + split; [left |]. intros kv' [-> | Hin']%elem_of_cons; [lia |].
        specialize (Hleast kv' Hin'). lia.
      + split; [right; exact Hin |].
        intros kv' [-> | Hin']%elem_of_cons; [lia | auto].
    - subst l. split; [left |]. intros kv' ->%list_elem_of_singleton. lia. }
  unfold min_entry. specialize (Hlist (map_to_list d)).
  destruct (foldr _ None (map_to_list d)) as [[k v] |].
  - destruct Hlist as [Hin Hleast]. split.
    + apply elem_of_map_to_list. exact Hin.
    + intros k' v' Hk'. apply (Hleast (k', v')), elem_of_map_to_list, Hk'.
  - apply map_to_list_empty_iff, Hlist.
Qed.

Lemma py_pop_in_range {X} (l : list X) (i : Z) :
  0 <= i < len l ->
  exists x, l !! Z.to_nat i = Some x /\ py_pop l i = Ok (x, delete (Z.to_nat i) l).
Proof.
  intros Hi. unfold py_pop, Py.index. rewrite bool_decide_true by exact Hi.
  cbn [bind].
  destruct (lookup_lt_is_Some_2 l (Z.to_nat i)) as [x Hx]; [unfold len in Hi; lia |].
  exists x. rewrite Hx. split; reflexivity.
Qed.

Lemma rain_animate_chars_length move step_animation disable_modes
    (animating : list nat) :
  forall cs : list EffectCharacter,
    length (rain_animate_chars move step_animation disable_modes animating cs).1
    = length cs.
Proof.
  induction animating as [| i rest IH]; intros cs; [reflexivity |].
  cbn [rain_animate_chars]. destruct (cs !! i) as [ch |]; [| apply IH].
  match goal with |- context [rain_animate_chars _ _ _ rest ?cs'] =>
    specialize (IH cs'); destruct (rain_animate_chars _ _ _ rest cs') as [cs'' out] end.
  cbn [fst] in *. rewrite IH, length_insert. reflexivity.
Qed.

Section RainRun.

Variables move step_animation disable_modes : EffectCharacter -> EffectCharacter.
Variable animation_completed : EffectCharacter -> bool.
Variable randint : nat -> Z -> Z -> Z.
Hypothesis randint_range : forall k a b, a <= b -> a <= randint k a b <= b.

Lemma release_spec (e : Rain.RainEffect) :
  exists e', Rain.release e = Ok e'
    /\ Rain.characters e' = Rain.characters e
    /\ Rain.animating_chars e' = Rain.animating_chars e
    /\ ((Rain.pending_chars e <> [] \/ Rain.group_by_row e = ∅) -> e' = e)
    /\ (Rain.pending_chars e = [] -> Rain.group_by_row e <> ∅ ->
        exists r group,
          Rain.group_by_row e !! r = Some group
          /\ (forall r' group', Rain.group_by_row e !! r' = Some group' -> r <= r')
          /\ Rain.pending_chars e' = group
          /\ Rain.group_by_row e' = delete r (Rain.group_by_row e)).
Proof.
  unfold Rain.release.
  destruct (decide (Rain.pending_chars e = [])) as [Hpending | Hpending];
    [destruct (decide (Rain.group_by_row e = ∅)) as [Hgroups | Hgroups] |].
  - rewrite bool_decide_true by exact Hpending.
    rewrite (bool_decide_false (_ <> _)) by auto.
    exists e. repeat split; auto. intros _ Hne. contradiction.
  - rewrite bool_decide_true by exact Hpending.
    rewrite (bool_decide_true (_ <> _)) by exact Hgroups. cbn [andb].
    unfold pop_min. pose proof (min_entry_spec (Rain.group_by_row e)) as Hmin.
    destruct (min_entry (Rain.group_by_row e)) as [[r group] |]; [| contradiction].
    destruct Hmin as [Hgroup Hleast]. cbn [bind].
    eexists. split; [reflexivity |]. cbn.
    split; [reflexivity |]. split; [reflexivity |].
    split; [intros [? | ?]; contradiction |].
    intros _ _. exists r, group. rewrite Hpending. repeat split; auto.
  - rewrite bool_decide_false by exact Hpending. cbn [andb].
    exists e. repeat split; auto. intros Heq. contradiction.
Qed.

Lemma release_refs (e e' : Rain.RainEffect) :
  Rain.release e = Ok e' -> Rain.refs e' ≡ₚ Rain.refs e.
Proof.
  intros Hrelease.
  destruct (release_spec e) as (e1 & Hrun & _ & Hanimating & Hsame & Hpop).
  rewrite Hrelease in Hrun. injection Hrun as <-.
  destruct (decide (Rain.pending_chars e = [])) as [Hpending | Hpending];
    [destruct (decide (Rain.group_by_row e = ∅)) as [Hgroups | Hgroups] |].
  - rewrite Hsame by auto. reflexivity.
  - destruct (Hpop Hpending Hgroups) as (r & group & Hgroup & _ & Hpending' & Hgroups').
    unfold Rain.refs. rewrite Hanimating, Hpending', Hgroups', Hpending.
    rewrite <- (map_to_list_delete _ _ _ Hgroup). simpl.
    rewrite <- !app_assoc. simpl.
    fold (@fmap list _ _ _ (@snd Z (list nat))
            (map_to_list (delete r (Rain.group_by_row e)))).
    rewrite !app_assoc. apply Permutation_app_tail, Permutation_app_comm.
  - rewrite Hsame by auto. reflexivity.
Qed.

Lemma draw_spec (n : nat) :
  forall (k : nat) (pending animating : list nat),
    exists pending' moved,
      Rain.draw randint n k pending animating
      = Ok (pending', animating ++ moved, (k + length moved)%nat)
      /\ pending ≡ₚ moved ++ pending'
      /\ pending' `sublist_of` pending
      /\ length moved = (n `min` length pending)%nat.
Proof.
  induction n as [| n IH]; intros k pending animating; cbn [Rain.draw].
  - exists pending, []. rewrite app_nil_r, Nat.add_0_r. repeat split; auto.
  - case_bool_decide as Hpending.
    + assert (Hlen : 0 < len pending)
        by (unfold len; destruct pending; [congruence | simpl; lia]).
      unfold py_randint. rewrite bool_decide_true by lia. cbn [bind].
      pose proof (randint_range k 0 (len pending - 1) ltac:(lia)) as Hi.
      destruct (py_pop_in_range pending (randint k 0 (len pending - 1)) ltac:(lia))
        as (x & Hx & Hpop).
      rewrite Hpop. cbn [bind fst snd].
      destruct (IH (S k) (delete (Z.to_nat (randint k 0 (len pending - 1))) pending)
                  (animating ++ [x]))
        as (pending' & moved & Hrun & Hperm & Hsub & Hmoved).
      exists pending', (x :: moved). rewrite Hrun.
      split; [rewrite <- app_assoc; simpl; do 2 f_equal; lia |].
      split; [| split].
      * rewrite (delete_Permutation _ _ _ Hx), Hperm. reflexivity.
      * etrans; [exact Hsub | apply sublist_delete].
      * cbn [length]. rewrite Hmoved, length_delete by eauto.
        apply lookup_lt_Some in Hx. lia.
    + assert (pending = []) as -> by (destruct pending; [reflexivity | congruence]).
      exists [], []. rewrite app_nil_r, Nat.add_0_r. simpl. repeat split; auto; lia.
Qed.

Lemma start_some_returns (k : nat) (pending animating : list nat) :
  exists pending' moved k',
    Rain.start_some randint k pending animating = Ok (pending', animating ++ moved, k')
    /\ pending ≡ₚ moved ++ pending'
    /\ (k <= k')%nat.
Proof.
  unfold Rain.start_some. case_bool_decide as Hpending.
  - unfold py_randint. rewrite bool_decide_true by lia. cbn [bind].
    destruct (draw_spec (Z.to_nat (randint k 1 3)) (S k) pending animating)
      as (pending' & moved & Hrun & Hperm & _).
    exists pending', moved, (S k + length moved)%nat.
    split; [exact Hrun |]. split; [exact Hperm | lia].
  - exists pending, [], k. rewrite app_nil_r. repeat split; auto.
Qed.

Lemma pass_spec (e : Rain.RainEffect) (k : nat) :
  exists e' k' printed dropped,
    Rain.pass move step_animation disable_modes animation_completed randint e k
    = Ok (e', k', printed)
    /\ Rain.refs e ≡ₚ Rain.refs e' ++ dropped
    /\ Forall (fun i => forall ch, Rain.characters e' !! i = Some ch ->
                                   animation_completed ch = true) dropped
    /\ Forall (fun i => exists ch, Rain.characters e' !! i = Some ch
                                   /\ animation_completed ch = false)
         (Rain.animating_chars e')
    /\ length (Rain.characters e') = length (Rain.characters e)
    /\ (k <= k')%nat.
Proof.
  unfold Rain.pass.
  destruct (release_spec e) as (e1 & Hrelease & Hcs1 & _).
  pose proof (release_refs e e1 Hrelease) as Hrefs1.
  rewrite Hrelease. cbn [bind].
  destruct (start_some_returns k (Rain.pending_chars e1) (Rain.animating_chars e1))
    as (pending & moved & k' & Hstart & Hperm & Hk).
  rewrite Hstart. cbn [bind].
  pose proof (rain_animate_chars_length move step_animation disable_modes
                (Rain.animating_chars e1 ++ moved) (Rain.characters e1)) as Hlength.
  destruct (rain_animate_chars move step_animation disable_modes
              (Rain.animating_chars e1 ++ moved) (Rain.characters e1)) as [cs printed].
  cbn [fst] in Hlength.
  set (keeps := fun i : nat => animation_completed <$> cs !! i = Some false).
  eexists _, k', printed, (filter (fun i => ~ keeps i) (Rain.animating_chars e1 ++ moved)).
  split; [reflexivity |]. unfold Rain.refs at 2.
  cbn [Rain.characters Rain.pending_chars Rain.animating_chars Rain.group_by_row].
  split; [| split; [| split; [| split; [congruence | exact Hk]]]].
  - rewrite <- Hrefs1. unfold Rain.refs. rewrite <- !app_assoc.
    apply Permutation_app_head.
    rewrite (filter_app_complement keeps), Hperm.
    rewrite (Permutation_app_comm moved pending), <- app_assoc.
    apply Permutation_app_head, Permutation_app_comm.
  - apply Forall_forall. intros i [Hdrop _]%list_elem_of_filter ch Hch.
    unfold keeps in Hdrop. rewrite Hch in Hdrop. simpl in Hdrop.
    destruct (animation_completed ch); [reflexivity | congruence].
  - apply Forall_forall. intros i [Hkeep _]%list_elem_of_filter.
    unfold keeps in Hkeep. destruct (cs !! i) as [ch |]; [| discriminate].
    exists ch. simpl in Hkeep. split; congruence.
Qed.

(** X20.  [RainEffect.run], lines 34 and 35: while characters are pending,
    or when no group is left, nothing is released.  With no character pending
    and a group left, the group of the least row is taken out of the groups
    and becomes the pending characters.  No character and no reference is
    lost or added either way, and the step raises no error. *)
Theorem release_least_row (e : Rain.RainEffect) :
  exists e', Rain.release e = Ok e'
    /\ Rain.characters e' = Rain.characters e
    /\ Rain.animating_chars e' = Rain.animating_chars e
    /\ Rain.refs e' ≡ₚ Rain.refs e
    /\ ((Rain.pending_chars e <> [] \/ Rain.group_by_row e = ∅) -> e' = e)
    /\ (Rain.pending_chars e = [] -> Rain.group_by_row e <> ∅ ->
        exists r group,
          Rain.group_by_row e !! r = Some group
          /\ (forall r' group', Rain.group_by_row e !! r' = Some group' -> r <= r')
          /\ Rain.pending_chars e' = group
          /\ Rain.group_by_row e' = delete r (Rain.group_by_row e)).
Proof.
  destruct (release_spec e) as (e' & Hrelease & Hcs & Hanimating & Hsame & Hpop).
  exists e'. split; [exact Hrelease |]. split; [exact Hcs |].
  split; [exact Hanimating |]. split; [exact (release_refs e e' Hrelease) |].
  split; [exact Hsame | exact Hpop].
Qed.

(** X21.  [RainEffect.run], lines 36 to 43: when every [random.randint(a, b)]
    lies in its range, the step raises no error.  With characters pending,
    it moves at least one and at most three of them, and never more than
    there are, to the end of the animating characters in the order they are
    drawn; the ones that stay pending keep their order.  It makes one random
    draw for the count and one for every character it moves.  With no
    character pending it does nothing and draws nothing. *)
Theorem start_some_moves (k : nat) (pending animating : list nat) :
  exists pending' moved k',
    Rain.start_some randint k pending animating = Ok (pending', animating ++ moved, k')
    /\ pending ≡ₚ moved ++ pending'
    /\ pending' `sublist_of` pending
    /\ (length moved <= 3 `min` length pending)%nat
    /\ (pending <> [] -> (1 <= length moved)%nat /\ k' = (k + 1 + length moved)%nat)
    /\ (pending = [] -> k' = k).
Proof.
  unfold Rain.start_some. case_bool_decide as Hpending.
  - unfold py_randint. rewrite bool_decide_true by lia. cbn [bind].
    pose proof (randint_range k 1 3 ltac:(lia)) as Hn.
    destruct (draw_spec (Z.to_nat (randint k 1 3)) (S k) pending animating)
      as (pending' & moved & Hrun & Hperm & Hsub & Hmoved).
    exists pending', moved, (S k + length moved)%nat.
    split; [exact Hrun |]. split; [exact Hperm |]. split; [exact Hsub |].
    split; [lia |]. split; [| congruence].
    intros _. split; [| lia].
    destruct pending; [congruence | simpl in Hmoved; lia].
  - assert (pending = []) as -> by (destruct pending; [reflexivity | congruence]).
    exists [], [], k. rewrite app_nil_r. repeat split; auto; simpl; try lia; congruence.
Qed.

(** X22.  [RainEffect.run], one pass of the loop: when every
    [random.randint(a, b)] lies in its range and the references of the
    effect (in the groups, pending and animating) are references to its
    characters, no two of them the same, the pass raises no error and leaves
    references of that kind.  The references it leaves are those it found
    but for the ones it drops, and it drops only references to characters
    whose animation is completed after the pass; the animation of every
    character that is still animating is not completed. *)
Theorem pass_conserves (e : Rain.RainEffect) (k : nat) :
  NoDup (Rain.refs e) ->
  Forall (fun i => (i < length (Rain.characters e))%nat) (Rain.refs e) ->
  exists e' k' printed dropped,
    Rain.pass move step_animation disable_modes animation_completed randint e k
    = Ok (e', k', printed)
    /\ Rain.refs e ≡ₚ Rain.refs e' ++ dropped
    /\ NoDup (Rain.refs e')
    /\ Forall (fun i => (i < length (Rain.characters e'))%nat) (Rain.refs e')
    /\ Forall (fun i => animation_completed <$> Rain.characters e' !! i = Some true)
         dropped
    /\ Forall (fun i => animation_completed <$> Rain.characters e' !! i = Some false)
         (Rain.animating_chars e').
Proof.
  intros Hnodup Hvalid.
  destruct (pass_spec e k)
    as (e' & k' & printed & dropped & Hpass & Hperm & Hdropped & Hkept & Hlength & _).
  exists e', k', printed, dropped.
  rewrite Hperm in Hnodup, Hvalid.
  apply NoDup_app in Hnodup as (Hnodup & _ & _).
  apply Forall_app in Hvalid as [Hvalid Hvalid_dropped].
  split; [exact Hpass |]. split; [exact Hperm |]. split; [exact Hnodup |].
  split; [rewrite Hlength; exact Hvalid |]. split.
  - apply Forall_forall. intros i Hi.
    rewrite Forall_forall in Hdropped, Hvalid_dropped.
    destruct (lookup_lt_is_Some_2 (Rain.characters e') i) as [ch Hch];
      [rewrite Hlength; auto |].
    rewrite Hch. simpl. f_equal. eauto.
  - apply Forall_forall. intros i Hi. rewrite Forall_forall in Hkept.
    destruct (Hkept i Hi) as (ch & Hch & Hfalse). rewrite Hch. simpl. congruence.
Qed.

(** X23.  [RainEffect.run], the loop: when every [random.randint(a, b)] lies
    in its range, the loop raises no error, whatever the effect holds: the
    least row is asked for only when a group is left, and the positions
    popped are positions of the list.  When the loop ends, no group, no
    pending and no animating character is left, and the effect has as many
    characters as before. *)
Theorem loop_never_raises (fuel : nat) :
  forall (e : Rain.RainEffect) (k : nat),
    Rain.loop move step_animation disable_modes animation_completed randint fuel e k
    = OutOfFuel
    \/ exists e' k',
         Rain.loop move step_animation disable_modes animation_completed randint fuel e k
         = Ok (e', k')
         /\ Rain.group_by_row e' = ∅
         /\ Rain.pending_chars e' = []
         /\ Rain.animating_chars e' = []
         /\ length (Rain.characters e') = length (Rain.characters e)
         /\ (k <= k')%nat.
Proof.
  induction fuel as [| fuel IH]; intros e k; cbn [Rain.loop].
  - destruct (Rain.busy e) eqn:Hbusy; [left; reflexivity | right].
    exists e, k. split; [reflexivity |].
    unfold Rain.busy in Hbusy.
    apply orb_false_iff in Hbusy as [[Hg Ha]%orb_false_iff Hp].
    apply bool_decide_eq_false in Hg, Ha, Hp.
    repeat split; auto.
    + destruct (decide (Rain.group_by_row e = ∅)); tauto.
    + destruct (Rain.pending_chars e); [reflexivity | exfalso; apply Hp; discriminate].
    + destruct (Rain.animating_chars e); [reflexivity | exfalso; apply Ha; discriminate].
  - destruct (Rain.busy e) eqn:Hbusy.
    + destruct (pass_spec e k)
        as (e1 & k1 & printed & dropped & Hpass & _ & _ & _ & Hlength & Hk).
      rewrite Hpass. cbn [bind fst snd].
      destruct (IH e1 k1) as [Hout | (e' & k' & Hrun & Hg & Hp & Ha & Hlength' & Hk')];
        [left; exact Hout | right].
      exists e', k'. rewrite Hrun. repeat split; auto; [congruence | lia].
    + right. exists e, k. split; [reflexivity |].
      unfold Rain.busy in Hbusy.
      apply orb_false_iff in Hbusy as [[Hg Ha]%orb_false_iff Hp].
      apply bool_decide_eq_false in Hg, Ha, Hp.
      repeat split; auto.
      * destruct (decide (Rain.group_by_row e = ∅)); tauto.
      * destruct (Rain.pending_chars e); [reflexivity | exfalso; apply Hp; discriminate].
      * destruct (Rain.animating_chars e); [reflexivity | exfalso; apply Ha; discriminate].
Qed.

End RainRun.

Lemma start_some_moves_witness :
  exists pending' moved k',
    Rain.start_some (fun _ a _ => a) 0 [4; 7; 9]%nat [1%nat]
    = Ok (pending', [1%nat] ++ moved, k')
    /\ [4; 7; 9]%nat ≡ₚ moved ++ pending'
    /\ pending' `sublist_of` [4; 7; 9]%nat
    /\ (length moved <= 3 `min` length [4; 7; 9]%nat)%nat
    /\ ([4; 7; 9]%nat <> [] -> (1 <= length moved)%nat /\ k' = (0 + 1 + length moved)%nat)
    /\ ([4; 7; 9]%nat = [] -> k' = 0%nat).
Proof.
  apply (start_some_moves (fun _ a _ => a)).
  intros _ a b Hab. lia.
Defined.

Lemma pass_conserves_witness :
  let e := {| Rain.characters := [new_EffectCharacter Zed 1 1; new_EffectCharacter Zed 2 1];
              Rain.pending_chars := [0%nat];
              Rain.animating_chars := [1%nat];
              Rain.group_by_row := ∅;
              Rain.input_height := 1;
              Rain.terminal_height := 24 |} in
  exists e' k' printed dropped,
    Rain.pass step_left id id (fun _ => true) (fun _ a _ => a) e 0 = Ok (e', k', printed)
    /\ Rain.refs e ≡ₚ Rain.refs e' ++ dropped
    /\ NoDup (Rain.refs e')
    /\ Forall (fun i => (i < length (Rain.characters e'))%nat) (Rain.refs e')
    /\ Forall (fun i => (fun _ => true) <$> Rain.characters e' !! i = Some true) dropped
    /\ Forall (fun i => (fun _ => true) <$> Rain.characters e' !! i = Some false)
         (Rain.animating_chars e').
Proof.
  intros e.
  apply (pass_conserves step_left id id (fun _ => true) (fun _ a _ => a)).
  - intros _ a b Hab. lia.
  - vm_compute. apply (bool_decide_unpack _). vm_compute. exact I.
  - vm_compute. repeat constructor.
Defined.

Lemma loop_never_raises_witness :
  let e := {| Rain.characters := [new_EffectCharacter Zed 1 1; new_EffectCharacter Zed 2 1];
              Rain.pending_chars := [];
              Rain.animating_chars := [];
              Rain.group_by_row := {[ 1 := [0; 1]%nat ]};
              Rain.input_height := 1;
              Rain.terminal_height := 24 |} in
  Rain.loop step_left id id (fun _ => true) (fun _ a _ => a) 3 e 0 = OutOfFuel
  \/ exists e' k',
       Rain.loop step_left id id (fun _ => true) (fun _ a _ => a) 3 e 0 = Ok (e', k')
       /\ Rain.group_by_row e' = ∅
       /\ Rain.pending_chars e' = []
       /\ Rain.animating_chars e' = []
       /\ length (Rain.characters e') = length (Rain.characters e)
       /\ (0 <= k')%nat.
Proof.
  intros e.
  apply (loop_never_raises step_left id id (fun _ => true) (fun _ a _ => a)).
  intros _ a b Hab. lia.
Defined.

(** ** The characters after [RainEffect.animate_chars] *)

(** X24.  [RainEffect.animate_chars], with no character twice among the
    animating ones: every animating character is moved and its animation
    stepped once, after its graphical modes are disabled when it stands at
    its input coordinate; the other characters are not touched, and no
    character is added or lost. *)
Theorem rain_animate_chars_moves_each move step_animation disable_modes
    (animating : list nat) (cs : list EffectCharacter) :
  NoDup animating ->
  let cs' := (rain_animate_chars move step_animation disable_modes animating cs).1 in
  length cs' = length cs
  /\ forall i,
       cs' !! i
       = if decide (i ∈ animating)
         then (fun ch => step_animation (move (rain_printed disable_modes ch))) <$> cs !! i
         else cs !! i.
Proof.
  intros Hnd. cbn zeta. split; [apply rain_animate_chars_length |].
  revert cs. induction Hnd as [| k animating Hk Hnd IH]; intros cs i.
  - cbn [rain_animate_chars fst]. rewrite decide_False by (intros Hin; inversion Hin).
    reflexivity.
  - cbn [rain_animate_chars]. destruct (cs !! k) as [ch |] eqn:Hch.
    + fold (rain_printed disable_modes ch).
      specialize (IH (<[k := step_animation (move (rain_printed disable_modes ch))]> cs) i).
      destruct (rain_animate_chars _ _ _ animating _) as [cs' out]. cbn [fst] in *.
      rewrite IH. destruct (decide (i = k)) as [-> | Hne].
      * rewrite decide_False by exact Hk. rewrite decide_True by left.
        rewrite list_lookup_insert_eq by (eapply lookup_lt_Some; exact Hch).
        rewrite Hch. reflexivity.
      * rewrite list_lookup_insert_ne by auto.
        destruct (decide (i ∈ animating)) as [Hin | Hout].
        -- rewrite decide_True by (right; exact Hin). reflexivity.
        -- rewrite decide_False; [reflexivity |].
           intros [-> | Hin]%elem_of_cons; contradiction.
    + rewrite IH. destruct (decide (i = k)) as [-> | Hne].
      * rewrite decide_False by exact Hk. rewrite decide_True by left.
        rewrite Hch. reflexivity.
      * destruct (decide (i ∈ animating)) as [Hin | Hout].
        -- rewrite decide_True by (right; exact Hin). reflexivity.
        -- rewrite decide_False; [reflexivity |].
           intros [-> | Hin]%elem_of_cons; contradiction.
Qed.

Lemma rain_animate_chars_moves_each_witness :
  let cs := [new_EffectCharacter Zed 1 1; new_EffectCharacter Zed 5 1] in
  let cs' := (rain_animate_chars step_left id id [1%nat] cs).1 in
  length cs' = length cs
  /\ forall i,
       cs' !! i
       = if decide (i ∈ [1%nat])
         then (fun ch => id (step_left (rain_printed id ch))) <$> cs !! i
         else cs !! i.
Proof.
  intros cs. apply (rain_animate_chars_moves_each step_left id id [1%nat] cs).
  apply NoDup_singleton.
Defined.

(** ** From the preparation to the loop *)

(** X25.  [RainEffect.run], lines 31 and 32, on an effect that has no
    pending and no animating characters and no groups yet: after
    [prepare_data] and the clearing of the pending characters, the groups
    hold one reference to every character of the effect and nothing else
    does, so that the references are references to characters of the effect,
    no two of them the same, as a pass of the loop needs them. *)
Theorem prepared_refs (e : Rain.RainEffect) :
  Rain.pending_chars e = [] -> Rain.animating_chars e = [] -> Rain.group_by_row e = ∅ ->
  let e' := Rain.clear_pending (Rain.prepare_data e) in
  Rain.refs e' ≡ₚ seq 0 (length (Rain.characters e))
  /\ Rain.pending_chars e' = []
  /\ Rain.animating_chars e' = []
  /\ NoDup (Rain.refs e')
  /\ Forall (fun i => (i < length (Rain.characters e'))%nat) (Rain.refs e').
Proof.
  intros Hpending Hanimating Hgroups. cbn zeta.
  assert (Hrefs : Rain.refs (Rain.clear_pending (Rain.prepare_data e))
                  ≡ₚ seq 0 (length (Rain.characters e))).
  { unfold Rain.refs, Rain.clear_pending, Rain.prepare_data.
    cbn [Rain.group_by_row Rain.pending_chars Rain.animating_chars].
    destruct (prepare_characters e (length (Rain.characters e)))
      as (_ & Hpending' & Hanimating' & Hgroups' & _).
    cbn zeta in *.
    rewrite add_to_groups_refs, py_sorted_Permutation.
    rewrite Hpending', Hanimating', Hgroups', Hpending, Hanimating, Hgroups.
    rewrite map_to_list_empty. simpl. rewrite app_nil_r. reflexivity. }
  split; [exact Hrefs |]. split; [reflexivity |].
  split.
  { unfold Rain.clear_pending, Rain.prepare_data. cbn [Rain.animating_chars].
    destruct (prepare_characters e (length (Rain.characters e)))
      as (_ & _ & Hanimating' & _).
    cbn zeta in *. rewrite Hanimating'. exact Hanimating. }
  split.
  - rewrite Hrefs. apply NoDup_seq.
  - rewrite Hrefs. unfold Rain.clear_pending, Rain.prepare_data. cbn [Rain.characters].
    rewrite prepare_characters_length.
    apply Forall_forall. intros i Hi%elem_of_seq. lia.
Qed.

Lemma prepared_refs_witness :
  let e := {| Rain.characters := [new_EffectCharacter Zed 1 2; new_EffectCharacter Zed 1 1];
              Rain.pending_chars := [];
              Rain.animating_chars := [];
              Rain.group_by_row := ∅;
              Rain.input_height := 2;
              Rain.terminal_height := 24 |} in
  let e' := Rain.clear_pending (Rain.prepare_data e) in
  Rain.refs e' ≡ₚ seq 0 (length (Rain.characters e))
  /\ Rain.pending_chars e' = []
  /\ Rain.animating_chars e' = []
  /\ NoDup (Rain.refs e')
  /\ Forall (fun i => (i < length (Rain.characters e'))%nat) (Rain.refs e').
Proof.
  intros e. apply (prepared_refs e); reflexivity.
Defined.
